(** * Staged solves and the theoretical recovery bound of [opt_utils.py]

    A shallow embedding of [pareto/utilities/cm_utils/opt_utils.py].

    - Numbers are exact rationals ([Q]); the rounding of binary floating point
      is not modelled.  Division raises [ZeroDivisionError] on a zero divisor,
      as [/] does on Python's own numbers.
    - The network model returned by [build_qcp_br] is a mutable Pyomo object.
      It lives in a store ([heap]) and the functions pass its address around,
      so aliasing is visible.  [build_qcp_br] itself is not among the sources:
      the model it returns is a parameter.
    - The solver ([ipopt]) is an external program: its answer on a model is a
      parameter of the development.  [solve] loads the answer's values into the
      model and changes neither activation nor fixing flags.
    - [obj_fix] is not among the sources either; it is modelled from the spec.
    - Every operation on the store and every solver call is appended to a
      chronological [log]. *)

From Stdlib Require Import QArith Lqa Permutation Sorted.
From stdpp Require Import gmap strings list functions.

Open Scope string_scope.
Open Scope list_scope.

(** ** Outcomes of a call *)

Inductive Exn :=
| AssertionError
| ZeroDivisionError
| RuntimeError        (* raised by [pyo.assert_optimal_termination] *)
| Unallocated.        (* an address outside the store; never raised below *)

Inductive Res (A : Type) :=
| Ok (a : A)
| Raise (e : Exn).
Arguments Ok {A} a.
Arguments Raise {A} e.

(** ** The attributes of the network model that this module touches *)

Inductive ConName :=
| MSconc | Pconc | Cconc | Sconc | Wconc | TINconc | NTTWconc | NTCWconc
| NTSrcconc | minconccon
| Cflow | noinvflow | Sinv | Dflow | Wflow | TINflow | NTTWflow | NTCWflow.

Inductive ObjName := obj | br_obj | treatment_only_obj.

#[global] Instance ConName_eq_dec : EqDecision ConName.
Proof. solve_decision. Defined.

#[global] Instance ObjName_eq_dec : EqDecision ObjName.
Proof. solve_decision. Defined.

(** The constraints by name, written out apart from the two lists that the
    staged functions hand to [obj_fix] ([conclist] and [flowlist] below): the
    ten concentration constraints and the eight flow constraints.  What is
    stated about the staged solves is stated over these names, so that it says
    which constraints are on and which are off whatever the functions pass. *)
Definition concentration_constraints : list ConName :=
  [MSconc; Pconc; Cconc; Sconc; Wconc; TINconc; NTTWconc; NTCWconc;
   NTSrcconc; minconccon].

Definition flow_constraints : list ConName :=
  [Cflow; noinvflow; Sinv; Dflow; Wflow; TINflow; NTTWflow; NTCWflow].

(** An index of an indexed component: a tuple whose component [0] is a node
    name ([k[0]] in the source) and whose component [1] is a time period. *)
Definition Key : Type := string * string.

(** An indexed constraint: the flag of the container and one flag per member.
    [activate()] and [deactivate()] on the container set the container's flag
    and every member's; on a member they set that member's flag only. *)
Record Constraint := mkConstraint {
  active : bool;
  members : gmap Key bool
}.

Definition Constraint_activate (c : Constraint) : Constraint :=
  {| active := true; members := (λ _, true) <$> members c |}.

Definition Constraint_deactivate (c : Constraint) : Constraint :=
  {| active := false; members := (λ _, false) <$> members c |}.

Definition ConstraintData_deactivate (k : Key) (c : Constraint) : Constraint :=
  {| active := active c; members := alter (λ _, false) k (members c) |}.

(** A constraint is wholly active when the container and all members are. *)
Definition fully_active (c : Constraint) : Prop :=
  active c = true ∧ ∀ k b, members c !! k = Some b → b = true.

Definition fully_inactive (c : Constraint) : Prop :=
  active c = false ∧ ∀ k b, members c !! k = Some b → b = false.

(** Solver reports, as [pyomo.opt] names them. *)
Inductive SolverStatus := ok | warning | error | aborted | unknown.

Inductive TerminationCondition :=
| optimal | locallyOptimal | globallyOptimal
| infeasible | unbounded | maxIterations | maxTimeLimit | other.

Record SolverResults := mkResults {
  status : SolverStatus;
  termination_condition : TerminationCondition
}.

Definition check_optimal_termination (r : SolverResults) : bool :=
  match status r, termination_condition r with
  | ok, optimal | ok, locallyOptimal | ok, globallyOptimal => true
  | _, _ => false
  end.

(** Solver options, in the order they are set. *)
Definition Options := list (string * Q).

(** ** A state-and-exception monad

    A computation reads and writes a state of type [St] and either returns or
    raises; the state reached when it raises is kept. *)

Definition Eff (St A : Type) : Type := St → Res A * St.

Definition ret {St A} (a : A) : Eff St A := λ w, (Ok a, w).

Definition bind {St A B} (c : Eff St A) (k : A → Eff St B) : Eff St B :=
  λ w, match c w with
       | (Ok a, w') => k a w'
       | (Raise e, w') => (Raise e, w')
       end.

Definition raise {St A} (e : Exn) : Eff St A := λ w, (Raise e, w).

(** [assert b] *)
Definition assert {St} (b : bool) : Eff St unit :=
  if b then ret tt else raise AssertionError.

(** [pyo.assert_optimal_termination(status)] raises [RuntimeError] unless the
    report passes [check_optimal_termination]. *)
Definition assert_optimal_termination {St} (r : SolverResults) : Eff St unit :=
  if check_optimal_termination r then ret tt else raise RuntimeError.

Notation "'let*' x := c 'in' k" := (bind c (λ x, k))
  (at level 63, x name, c at next level, right associativity, only parsing).
Notation "c >> k" := (bind c (λ _, k))
  (at level 63, right associativity, only parsing).

(** The events a computation appended to a chronological log. *)
Definition suffix_from {E} (before after : list E) : list E :=
  drop (length before) after.

Section Staged.

(** [Data] is what [build_qcp_br] is given, [Sol] the values of the model's
    variables. *)
Context {Data Sol : Type}.

Record Model := mkModel {
  cons : ConName → Constraint;
  objs : ObjName → bool;
  fixed : gmap string bool;      (* Var component name ↦ is it fixed *)
  values : Sol
}.

Definition loc := nat.

Inductive Event :=
| EvBuild (l : loc)
| EvObjActivate (l : loc) (o : ObjName)
| EvObjDeactivate (l : loc) (o : ObjName)
| EvObjFix (l : loc) (vars : list string) (activate deactivate : list ConName)
| EvDeactivate (l : loc) (c : ConName)
| EvDeactivateData (l : loc) (c : ConName) (k : Key)
| EvSolve (l : loc) (options : Options) (tee : bool) (m : Model)
          (r : SolverResults)
| EvPrint (s : string)
| EvPrintValue (s : string) (v : Q).

Record World := mkWorld {
  heap : gmap loc Model;
  log : list Event
}.

(** The external collaborators: the model builder, the solver's answer on a
    model under given options, and the value of the expression
    [model.treat_rev]. *)
Variable build_qcp_br : Data → Model.
Variable ipopt : Options → Model → SolverResults * Sol.
Variable treat_rev : Model → Q.

Definition M := Eff World.

Definition emit (e : Event) : M unit :=
  λ w, (Ok tt, {| heap := heap w; log := log w ++ [e] |}).

Definition update (l : loc) (f : Model → Model) : M unit :=
  λ w, (Ok tt, {| heap := alter f l (heap w); log := log w |}).

Definition print (s : string) : M unit := emit (EvPrint s).

Fixpoint for_each {A} (xs : list A) (body : A → M unit) : M unit :=
  match xs with
  | [] => ret tt
  | x :: xs' => body x >> for_each xs' body
  end.

(** ** Operations on the model object at an address *)

Definition set_con (c : ConName) (f : Constraint → Constraint) (m : Model)
  : Model :=
  {| cons := <[c := f (cons m c)]> (cons m); objs := objs m;
     fixed := fixed m; values := values m |}.

Definition set_obj (o : ObjName) (b : bool) (m : Model) : Model :=
  {| cons := cons m; objs := <[o := b]> (objs m);
     fixed := fixed m; values := values m |}.

Definition load_solution (s : Sol) (m : Model) : Model :=
  {| cons := cons m; objs := objs m; fixed := fixed m; values := s |}.

(** [model = build_qcp_br(data)]: a new object at a fresh address. *)
Definition build (d : Data) : M loc :=
  λ w, let l := fresh (dom (heap w)) in
       (Ok l, {| heap := <[l := build_qcp_br d]> (heap w);
                 log := log w ++ [EvBuild l] |}).

Definition Objective_activate (l : loc) (o : ObjName) : M unit :=
  update l (set_obj o true) >> emit (EvObjActivate l o).

Definition Objective_deactivate (l : loc) (o : ObjName) : M unit :=
  update l (set_obj o false) >> emit (EvObjDeactivate l o).

Definition deactivate (l : loc) (c : ConName) : M unit :=
  update l (set_con c Constraint_deactivate) >> emit (EvDeactivate l c).

Definition deactivate_data (l : loc) (c : ConName) (k : Key) : M unit :=
  update l (set_con c (ConstraintData_deactivate k)) >>
  emit (EvDeactivateData l c k).

(** [for k in model.<c>]: the indices of the constraint's members. *)
Definition keys (l : loc) (c : ConName) : M (list Key) :=
  λ w, match heap w !! l with
       | Some m => (Ok (map_to_list (members (cons m c))).*1, w)
       | None => (Raise Unallocated, w)
       end.

(** [status = opt.solve(model, tee=tee)]: the solver reads the object as it
    is, its values are loaded into the same object, its report is returned. *)
Definition solve (options : Options) (tee : bool) (l : loc)
  : M SolverResults :=
  λ w, match heap w !! l with
       | Some m =>
           let '(r, s) := ipopt options m in
           (Ok r, {| heap := <[l := load_solution s m]> (heap w);
                     log := log w ++ [EvSolve l options tee m r] |})
       | None => (Raise Unallocated, w)
       end.

(** Modelled from the spec: the part of [obj_fix] that fixes variables.  Every
    [Var] component named in [vars] is fixed and every other one is unfixed
    (its second call, with no names, is "unfixing all the initialized
    variables"). *)
Definition fix_vars (vars : list string) (m : Model) : Model :=
  {| cons := cons m; objs := objs m;
     fixed := map_imap (λ v _, Some (bool_decide (v ∈ vars))) (fixed m);
     values := values m |}.

(** [for c in cs: c.activate()], or [c.deactivate()]. *)
Definition toggle (f : Constraint → Constraint) (cs : list ConName) (m : Model)
  : Model :=
  foldl (λ m' c, set_con c f m') m cs.

(** Modelled from the spec: what [obj_fix] does to the model object. *)
Definition obj_fix_model (vars : list string)
    (activate deactivate : list ConName) (m : Model) : Model :=
  toggle Constraint_activate activate
    (toggle Constraint_deactivate deactivate (fix_vars vars m)).

(** Modelled from the spec: [obj_fix] of [pareto/utilities/cm_utils/gen_utils.py]
    is not among the sources.  The spec and the comments at its two call sites
    say what it does: it fixes the variables named in [vars] (the first call
    "fixes the concentration variables and removes the concentration
    constraints"), leaves the others unfixed, deactivates the components of
    [deactivate], activates those of [activate], and hands back the object it
    was given.  In both calls the two lists are disjoint or one is empty, so
    the order of activation and deactivation does not matter here. *)
Definition obj_fix (l : loc) (vars : list string)
    (activate deactivate : list ConName) : M loc :=
  update l (obj_fix_model vars activate deactivate) >>
  emit (EvObjFix l vars activate deactivate) >>
  ret l.

(** ** The two staged solves *)

Definition conclist : list ConName :=
  [MSconc; Pconc; Cconc; Sconc; Wconc; TINconc; NTTWconc; NTCWconc;
   NTSrcconc; minconccon].

Definition flowlist : list ConName :=
  [Cflow; noinvflow; Sinv; Dflow; Wflow; TINflow; NTTWflow; NTCWflow].

(** [print("Max lithium revenue with existing infrastructure:",
    pyo.value(model.treat_rev))] *)
Definition print_treat_rev (l : loc) : M unit :=
  λ w, match heap w !! l with
       | Some m =>
           emit (EvPrintValue
                   "Max lithium revenue with existing infrastructure:"
                   (treat_rev m)) w
       | None => (Raise Unallocated, w)
       end.

(** [k[0] == "K1_TW" or k[0] == "K1_CW"] *)
Definition is_K1 (k : Key) : bool :=
  bool_decide (k.1 = "K1_TW") || bool_decide (k.1 = "K1_CW").

Definition max_recovery_with_infrastructure (data : Data) (tee : bool)
  : M loc :=
  let* model := build data in
  Objective_deactivate model obj >>
  Objective_deactivate model br_obj >>
  Objective_activate model treatment_only_obj >>
  let* model := obj_fix model ["v_C"] flowlist conclist in
  print "   ... running linear flow model" >>
  let* status := solve [] tee model in
  assert_optimal_termination status >>
  let* model := obj_fix model [] (conclist ++ flowlist) [] in
  deactivate model TINflow >>
  let* ks := keys model Dflow in
  for_each ks (λ k,
    if is_K1 k then deactivate_data model Dflow k else ret tt) >>
  print "   ... running bilinear model" >>
  let* status := solve [("ma27_pivtol", (1 # 100)%Q); ("tol", (1 # 1000000)%Q)]
                       tee model in
  assert_optimal_termination status >>
  print_treat_rev model >>
  ret model.

Definition cost_optimal (data : Data) (tee : bool) : M loc :=
  let* model := build data in
  let* model := obj_fix model ["v_C"] flowlist conclist in
  print "   ... running linear flow model" >>
  let* status := solve [] tee model in
  assert_optimal_termination status >>
  let* model := obj_fix model [] (conclist ++ flowlist) [] in
  print "   ... running bilinear model" >>
  let* status := solve [("max_iter", 10000%Q)] tee model in
  assert_optimal_termination status >>
  ret model.

(** ** The model as each solve sees it

    These follow the two functions line by line on the model alone; the run
    equations below tie them to the functions themselves. *)

Definition K1_keys (m : Model) : list Key :=
  List.filter is_K1 (map_to_list (members (cons m Dflow))).*1.

Definition Dflow_K1_off (m : Model) : Model :=
  foldl (λ m' k, set_con Dflow (ConstraintData_deactivate k) m') m (K1_keys m).

Definition co_first (data : Data) : Model :=
  obj_fix_model ["v_C"] flowlist conclist (build_qcp_br data).

Definition co_second (data : Data) : Model :=
  obj_fix_model [] (conclist ++ flowlist) []
    (load_solution (ipopt [] (co_first data)).2 (co_first data)).

Definition co_options : Options := [("max_iter", 10000%Q)].

Definition co_final (data : Data) : Model :=
  load_solution (ipopt co_options (co_second data)).2 (co_second data).

Definition co_stage1 (l : loc) (tee : bool) (data : Data) : list Event :=
  [EvBuild l; EvObjFix l ["v_C"] flowlist conclist;
   EvPrint "   ... running linear flow model";
   EvSolve l [] tee (co_first data) (ipopt [] (co_first data)).1].

Definition co_stage2 (l : loc) (tee : bool) (data : Data) : list Event :=
  [EvObjFix l [] (conclist ++ flowlist) [];
   EvPrint "   ... running bilinear model";
   EvSolve l co_options tee (co_second data)
     (ipopt co_options (co_second data)).1].

Definition mr_first (data : Data) : Model :=
  obj_fix_model ["v_C"] flowlist conclist
    (set_obj treatment_only_obj true
       (set_obj br_obj false (set_obj obj false (build_qcp_br data)))).

Definition mr_reactivated (data : Data) : Model :=
  set_con TINflow Constraint_deactivate
    (obj_fix_model [] (conclist ++ flowlist) []
       (load_solution (ipopt [] (mr_first data)).2 (mr_first data))).

Definition mr_second (data : Data) : Model :=
  Dflow_K1_off (mr_reactivated data).

Definition mr_options : Options :=
  [("ma27_pivtol", (1 # 100)%Q); ("tol", (1 # 1000000)%Q)].

Definition mr_final (data : Data) : Model :=
  load_solution (ipopt mr_options (mr_second data)).2 (mr_second data).

Definition mr_stage1 (l : loc) (tee : bool) (data : Data) : list Event :=
  [EvBuild l; EvObjDeactivate l obj; EvObjDeactivate l br_obj;
   EvObjActivate l treatment_only_obj;
   EvObjFix l ["v_C"] flowlist conclist;
   EvPrint "   ... running linear flow model";
   EvSolve l [] tee (mr_first data) (ipopt [] (mr_first data)).1].

Definition mr_stage2 (l : loc) (tee : bool) (data : Data) : list Event :=
  [EvObjFix l [] (conclist ++ flowlist) []; EvDeactivate l TINflow]
  ++ map (EvDeactivateData l Dflow) (K1_keys (mr_reactivated data))
  ++ [EvPrint "   ... running bilinear model";
      EvSolve l mr_options tee (mr_second data)
        (ipopt mr_options (mr_second data)).1].

(** Whether each solve reported an optimal termination, and what
    [max_recovery_with_infrastructure] prints at its end. *)
Definition co_ok1 (data : Data) : bool :=
  check_optimal_termination (ipopt [] (co_first data)).1.

Definition co_ok2 (data : Data) : bool :=
  check_optimal_termination
    (ipopt co_options (co_second data)).1.

Definition mr_ok1 (data : Data) : bool :=
  check_optimal_termination (ipopt [] (mr_first data)).1.

Definition mr_ok2 (data : Data) : bool :=
  check_optimal_termination
    (ipopt mr_options (mr_second data)).1.

Definition mr_tail (data : Data) : list Event :=
  if mr_ok2 data
  then [EvPrintValue "Max lithium revenue with existing infrastructure:"
          (treat_rev (mr_final data))]
  else [].

(** ** Reading a log *)

(** The solves of a log, in order: the model each one saw and its report. *)
Definition solves (tr : list Event) : list (Model * SolverResults) :=
  omap (λ e, match e with
             | EvSolve _ _ _ m r => Some (m, r)
             | _ => None
             end) tr.

(** The calls of [obj_fix] in a log, in order. *)
Definition obj_fix_calls (tr : list Event)
  : list (list string * list ConName * list ConName) :=
  omap (λ e, match e with
             | EvObjFix _ vars act deact => Some (vars, act, deact)
             | _ => None
             end) tr.

(** The models built in a log. *)
Definition builds (tr : list Event) : list loc :=
  omap (λ e, match e with EvBuild l => Some l | _ => None end) tr.

(** The address an event acts on. *)
Definition event_loc (e : Event) : option loc :=
  match e with
  | EvBuild l | EvObjActivate l _ | EvObjDeactivate l _ | EvObjFix l _ _ _
  | EvDeactivate l _ | EvDeactivateData l _ _ | EvSolve l _ _ _ _ => Some l
  | EvPrint _ | EvPrintValue _ _ => None
  end.

(** A solve whose report is not an optimal termination. *)
Definition failed_solve (e : Event) : Prop :=
  match e with
  | EvSolve _ _ _ _ r => check_optimal_termination r = false
  | _ => False
  end.

(** ** Shapes of the model between the stages *)

Definition vars_fixed_are (vars : list string) (m : Model) : Prop :=
  ∀ v b, fixed m !! v = Some b → b = bool_decide (v ∈ vars).

(** First stage: the ten concentration constraints off, the flow constraints
    on, exactly the concentration variables ["v_C"] fixed. *)
Definition flow_only (m : Model) : Prop :=
  (∀ c, c ∈ concentration_constraints → fully_inactive (cons m c))
  ∧ (∀ c, c ∈ flow_constraints → fully_active (cons m c))
  ∧ vars_fixed_are ["v_C"] m.

(** The toggling of the first stage undone: the ten concentration constraints
    and the flow constraints on, no variable fixed. *)
Definition toggling_reversed (m : Model) : Prop :=
  (∀ c, c ∈ concentration_constraints → fully_active (cons m c))
  ∧ (∀ c, c ∈ flow_constraints → fully_active (cons m c))
  ∧ vars_fixed_are [] m.

(** Second stage of [max_recovery_with_infrastructure]: as reversed, but
    [TINflow] is off and so is every [Dflow[k]] with [k[0]] one of ["K1_TW"],
    ["K1_CW"]; the other members of [Dflow] are on. *)
Definition recovery_shape (m : Model) : Prop :=
  (∀ c, c ∈ concentration_constraints → fully_active (cons m c))
  ∧ (∀ c, c ∈ flow_constraints → c ≠ TINflow → c ≠ Dflow →
          fully_active (cons m c))
  ∧ fully_inactive (cons m TINflow)
  ∧ active (cons m Dflow) = true
  ∧ (∀ k b, members (cons m Dflow) !! k = Some b →
            (k.1 = "K1_TW" ∨ k.1 = "K1_CW" → b = false)
            ∧ (k.1 ≠ "K1_TW" → k.1 ≠ "K1_CW" → b = true))
  ∧ vars_fixed_are [] m.

(** ** The staged sequence

    The events of a complete run: (1) [obj_fix] deactivates the ten
    concentration constraints and fixes ["v_C"], (2) the solver is run on the
    model [m1] so obtained, (3) [obj_fix] activates the concentration and the
    flow constraints again and fixes nothing, (4) the solver is run on the
    model [m2] so obtained.  [max_recovery_with_infrastructure] also switches
    objectives first and, before its second solve, deactivates [TINflow] and
    the members [ks] of [Dflow], which all have ["K1_TW"] or ["K1_CW"] as
    first index. *)
Definition cost_optimal_sequence (l : loc) (tee : bool) (tr : list Event)
  : Prop :=
  ∃ m1 m2,
    tr = [EvBuild l;
          EvObjFix l ["v_C"] flow_constraints concentration_constraints;
          EvPrint "   ... running linear flow model";
          EvSolve l [] tee m1 (ipopt [] m1).1;
          EvObjFix l [] (concentration_constraints ++ flow_constraints) [];
          EvPrint "   ... running bilinear model";
          EvSolve l co_options tee m2 (ipopt co_options m2).1]
    ∧ flow_only m1 ∧ toggling_reversed m2.

Definition max_recovery_sequence (l : loc) (tee : bool) (tr : list Event)
  : Prop :=
  ∃ m1 m2 ks post,
    tr = [EvBuild l;
          EvObjDeactivate l obj; EvObjDeactivate l br_obj;
          EvObjActivate l treatment_only_obj;
          EvObjFix l ["v_C"] flow_constraints concentration_constraints;
          EvPrint "   ... running linear flow model";
          EvSolve l [] tee m1 (ipopt [] m1).1;
          EvObjFix l [] (concentration_constraints ++ flow_constraints) [];
          EvDeactivate l TINflow]
         ++ map (EvDeactivateData l Dflow) ks
         ++ [EvPrint "   ... running bilinear model";
             EvSolve l mr_options tee m2 (ipopt mr_options m2).1]
         ++ post
    ∧ flow_only m1 ∧ recovery_shape m2
    ∧ Forall (λ k, k.1 = "K1_TW" ∨ k.1 = "K1_CW") ks ∧ solves post = [].

(** The events of a run that ends at its first solve: the first stage and
    nothing after it. *)
Definition cost_optimal_first_stage (l : loc) (tee : bool) (tr : list Event)
  : Prop :=
  ∃ m1,
    tr = [EvBuild l;
          EvObjFix l ["v_C"] flow_constraints concentration_constraints;
          EvPrint "   ... running linear flow model";
          EvSolve l [] tee m1 (ipopt [] m1).1]
    ∧ flow_only m1.

Definition max_recovery_first_stage (l : loc) (tee : bool) (tr : list Event)
  : Prop :=
  ∃ m1,
    tr = [EvBuild l;
          EvObjDeactivate l obj; EvObjDeactivate l br_obj;
          EvObjActivate l treatment_only_obj;
          EvObjFix l ["v_C"] flow_constraints concentration_constraints;
          EvPrint "   ... running linear flow model";
          EvSolve l [] tee m1 (ipopt [] m1).1]
    ∧ flow_only m1.

End Staged.

(** ** The theoretical recovery bound *)

Open Scope Q_scope.

(** The parameters of the model object that the two bounds read.  [p_FGen]
    lists its entries in iteration order; as in a Pyomo [Param] the keys are
    meant to be distinct, so [model.p_FGen[t]] is the value listed with [t]. *)
Record Params := mkParams {
  p_alpha : string → string → Q;            (* [unit, component] *)
  p_alphaW : string → Q;                    (* [unit] *)
  p_FGen : list (Key * Q);                  (* [node, time] ↦ bbl/day *)
  p_CGen : string → string → string → Q     (* [node, component, time] *)
}.

Definition Qltb (x y : Q) : bool := negb (Qle_bool y x).

(** Python's [a / b]. *)
Definition div {St} (a b : Q) : Eff St Q :=
  if Qeq_bool b 0 then raise ZeroDivisionError else ret (a / b).

(** [list.sort(key=lambda t: t[1], reverse=True)]: a stable sort, largest
    concentration first; pairs of equal concentration keep their order. *)
Fixpoint insert_desc (x : Q * Q) (l : list (Q * Q)) : list (Q * Q) :=
  match l with
  | [] => [x]
  | y :: l' => if Qltb (snd x) (snd y) then y :: insert_desc x l' else x :: l
  end.

Fixpoint sort_desc (l : list (Q * Q)) : list (Q * Q) :=
  match l with
  | [] => []
  | x :: l' => insert_desc x (sort_desc l')
  end.

(** [produced_flows_conc] before sorting: weekly flow and Li concentration of
    every entry of [p_FGen].  ([sumf] is computed but never read.) *)
Definition produced_flows_conc (model : Params) : list (Q * Q) :=
  map (λ tv : Key * Q,
         let t := fst tv in
         let f := snd tv * 7 in
         let c := p_CGen model (fst t) "Li" (snd t) in
         (f, c))
      (p_FGen model).

(** The accumulation loop, from [cumulative_f] and [cumulative_li]; it returns
    the final [cumulative_f]. *)
Fixpoint accumulate {St} (desired_li_conc : Q) (l : list (Q * Q))
    (cumulative_f cumulative_li : Q) : Eff St Q :=
  match l with
  | [] => ret cumulative_f
  | (f, c) :: l' =>
      let cf := cumulative_f + f in
      let cli := cumulative_li + f * c in
      let* li_conc := div cli cf in
      if Qltb desired_li_conc li_conc then
        accumulate desired_li_conc l' cf cli
      else
        let* ff := div (cumulative_li - desired_li_conc * cumulative_f)
                       (desired_li_conc - c) in
        let cumulative_f := cumulative_f + ff in
        let cumulative_li := cumulative_li + ff * c in
        let* li_conc := div cumulative_li cumulative_f in
        ret cumulative_f
  end.

Definition max_theoretical_recovery_flow {St} (model : Params)
    (treatment_unit : string) (desired_li_conc : Q) : Eff St Q :=
  assert (Qltb (999 # 1000) (p_alpha model treatment_unit "Li")) >>
  let alphaW := p_alphaW model treatment_unit in
  let desired_li_conc := desired_li_conc * (1 - alphaW) in
  let sorted := sort_desc (produced_flows_conc model) in
  let* cumulative_f := accumulate desired_li_conc sorted 0 0 in
  ret (cumulative_f * (1 - alphaW)).

(** ** Reading the sort and the loop *)


(** Running totals as the loop computes them. *)
Definition flows_from (cf : Q) (l : list (Q * Q)) : Q :=
  foldl (λ a p, a + fst p) cf l.

Definition lithium_from (cli : Q) (l : list (Q * Q)) : Q :=
  foldl (λ a p, a + fst p * snd p) cli l.

(** Adding the pairs of [l] one by one to totals [cf], [cli], the blended
    concentration is each time defined and strictly above [d]. *)
Fixpoint stays_above (d cf cli : Q) (l : list (Q * Q)) : Prop :=
  match l with
  | [] => True
  | (f, c) :: l' =>
      ¬ cf + f == 0
      ∧ d < (cli + f * c) / (cf + f)
      ∧ stays_above d (cf + f) (cli + f * c) l'
  end.

(** The linear program [mm] that [max_theoretical_recovery_flow_opt] builds. *)
Record ConcreteModel := mkConcreteModel {
  mm_S : list Key;                       (* index set of [F] *)
  mm_bounds : list (Key * (Q * Q));      (* bounds of [F[t]] *)
  mm_cumulative_F_lb : Q;                (* [bounds=(10, None)] *)
  mm_li : Key → Q;                       (* coefficient of [F[t]] in [total_li] *)
  mm_desired_li_conc : Q                 (* coefficient in [quality_con] *)
}.

(** Values of the variables of [mm]. *)
Record LPValues := mkLPValues {
  F : Key → Q;
  cumulative_F : Q
}.

Inductive LPEvent :=
| EvSolveLP (mm : ConcreteModel) (tee : bool) (r : SolverResults).

(** Lines 91 to 105: [mm] for a model and the adjusted [desired_li_conc]. *)
Definition build_mm (model : Params) (desired_li_conc : Q) : ConcreteModel :=
  {| mm_S := map fst (p_FGen model);
     mm_bounds := map (λ kv : Key * Q, (fst kv, (0, snd kv * 7)))
                      (p_FGen model);
     mm_cumulative_F_lb := 10;
     mm_li := λ t, p_CGen model (fst t) "Li" (snd t);
     mm_desired_li_conc := desired_li_conc |}.

(** A solve of [mm] whose report is not an optimal termination. *)
Definition failed_solve_lp (e : LPEvent) : Prop :=
  match e with
  | EvSolveLP _ _ r => check_optimal_termination r = false
  end.

Section Recovery.

(** The solver's answer on a linear program. *)
Variable ipopt_lp : ConcreteModel → SolverResults * LPValues.

Definition solve_lp (mm : ConcreteModel) (tee : bool)
  : Eff (list LPEvent) (SolverResults * LPValues) :=
  λ lg, let '(r, v) := ipopt_lp mm in (Ok (r, v), (lg ++ [EvSolveLP mm tee r])%list).

Definition max_theoretical_recovery_flow_opt (model : Params)
    (treatment_unit : string) (desired_li_conc : Q) (tee : bool)
  : Eff (list LPEvent) Q :=
  assert (Qltb (999 # 1000) (p_alpha model treatment_unit "Li")) >>
  let alphaW := p_alphaW model treatment_unit in
  let desired_li_conc := desired_li_conc * (1 - alphaW) in
  let mm := build_mm model desired_li_conc in
  let* answer := solve_lp mm tee in
  assert_optimal_termination (fst answer) >>
  ret (cumulative_F (snd answer) * (1 - alphaW)).

End Recovery.

(** ** What the claims say about a run *)

(** A function makes a hard stop at a failed solve: a failed solve is the last
    thing it does and it then raises [RuntimeError]; it raises no
    [RuntimeError] when no solve failed. *)
Definition hard_stop {E A} (failed : E → Prop) (tr : list E) (res : Res A)
  : Prop :=
  (∀ pre e post, tr = pre ++ e :: post → failed e →
                 post = [] ∧ res = Raise RuntimeError)
  ∧ ((∀ e, e ∈ tr → ¬ failed e) → res ≠ Raise RuntimeError).

(** One model object: the only model built is at [l], every operation and
    solve acts on [l], [l] is what is returned, and the rest of the store is
    as before. *)
Definition single_object {Sol} (l : loc) (w : @World Sol)
    (out : Res loc * @World Sol) : Prop :=
  let tr := suffix_from (log w) (log out.2) in
  builds tr = [l]
  ∧ Forall (λ e, ∀ l', event_loc e = Some l' → l' = l) tr
  ∧ (∀ l', out.1 = Ok l' → l' = l)
  ∧ heap w !! l = None
  ∧ (∀ l', l' ≠ l → heap out.2 !! l' = heap w !! l').

(** ** A toy network model and two solvers *)

Definition toy_constraint : Constraint :=
  {| active := true;
     members := {[ ("K1_TW", "T1") := true; ("K1_CW", "T1") := true;
                   ("N1", "T1") := true ]} |}.

Definition toy_model : @Model unit :=
  {| cons := λ _, toy_constraint; objs := λ _, true;
     fixed := {[ "v_C" := false; "v_F" := false ]}; values := tt |}.

Definition toy_build (_ : unit) : @Model unit := toy_model.

Definition ipopt_optimal (_ : Options) (_ : @Model unit)
  : SolverResults * unit :=
  ({| status := ok; termination_condition := optimal |}, tt).

Definition ipopt_infeasible (_ : Options) (_ : @Model unit)
  : SolverResults * unit :=
  ({| status := warning; termination_condition := infeasible |}, tt).

Definition empty_world : @World unit := {| heap := ∅; log := [] |}.

Definition toy_rev (_ : @Model unit) : Q := 0%Q.

(** ** The selection problem

    A selection pairs every (flow, concentration) pair with the amount taken
    from it. *)

Definition Qsum (l : list Q) : Q := foldr Qplus 0 l.

Definition taken (zs : list (Q * Q * Q)) : Q := Qsum (map snd zs).

Definition taken_li (zs : list (Q * Q * Q)) : Q :=
  Qsum (map (λ z, snd z * snd (fst z)) zs).

(** [zs] selects from the pairs [ps], within each pair's flow, with a
    flow-weighted average concentration of at least [d]. *)
Definition admissible (d : Q) (ps : list (Q * Q)) (zs : list (Q * Q * Q))
  : Prop :=
  map fst zs = ps
  ∧ Forall (λ z, 0 <= snd z ∧ snd z <= fst (fst z)) zs
  ∧ d * taken zs <= taken_li zs.

(** [v] is the largest total a selection from [ps] can take. *)
Definition max_total (d : Q) (ps : list (Q * Q)) (v : Q) : Prop :=
  (∃ zs, admissible d ps zs ∧ taken zs == v)
  ∧ ∀ zs, admissible d ps zs → taken zs <= v.



(** ** The linear program as a problem *)

(** [sum(g(t) for t in mm.S)] *)
Definition lp_sum (g : Key → Q) (S : list Key) : Q := Qsum (map g S).

(** The values [v] satisfy the bounds and the two constraints of [mm]. *)
Definition lp_feasible (mm : ConcreteModel) (v : LPValues) : Prop :=
  Forall (λ b, fst (snd b) <= F v (fst b) ∧ F v (fst b) <= snd (snd b))
         (mm_bounds mm)
  ∧ mm_cumulative_F_lb mm <= cumulative_F v
  ∧ cumulative_F v == lp_sum (F v) (mm_S mm)
  ∧ mm_desired_li_conc mm * cumulative_F v
    <= lp_sum (λ t, F v t * mm_li mm t) (mm_S mm).

(** [v] maximises [mm.obj], the expression [mm.cumulative_F]. *)
Definition lp_optimal (mm : ConcreteModel) (v : LPValues) : Prop :=
  lp_feasible mm v
  ∧ ∀ v', lp_feasible mm v' → cumulative_F v' <= cumulative_F v.

(** The pair of [produced_flows_conc] that an entry of [p_FGen] gives. *)
Definition flow_conc (model : Params) (tv : Key * Q) : Q * Q :=
  (snd tv * 7, p_CGen model (fst (fst tv)) "Li" (snd (fst tv))).

(** The selection that values of [mm] describe. *)
Definition selection_of (model : Params) (g : Key → Q)
  : list (Q * Q * Q) :=
  map (λ tv, (flow_conc model tv, g (fst tv))) (p_FGen model).

(** ** Small numeric models *)

(** A small numeric example: three sources of 1 bbl/day each with 200, 100
    and 50 mg/L. *)
Definition example_model : Params :=
  {| p_alpha := λ _ _, 1;
     p_alphaW := λ _, 0;
     p_FGen := [(("B", "T1"), 1); (("C", "T1"), 1); (("A", "T1"), 1)];
     p_CGen := λ n _ _, if String.eqb n "A" then 200
                        else if String.eqb n "B" then 100 else 50 |}.

Definition low_efficiency_model : Params :=
  {| p_alpha := λ _ _, 1 # 2; p_alphaW := λ _, 0;
     p_FGen := [(("A", "T1"), 1)]; p_CGen := λ _ _ _, 200 |}.

Definition zero_flow_model : Params :=
  {| p_alpha := λ _ _, 1; p_alphaW := λ _, 0;
     p_FGen := [(("A", "T1"), 0); (("B", "T1"), 1)];
     p_CGen := λ n _ _, if String.eqb n "A" then 200 else 100 |}.

Definition on_target_model : Params :=
  {| p_alpha := λ _ _, 1; p_alphaW := λ _, 1 # 2;
     p_FGen := [(("A", "T1"), 1); (("B", "T1"), 2)];
     p_CGen := λ n _ _, if String.eqb n "A" then 60 else 40 |}.

Definition below_target_model : Params :=
  {| p_alpha := λ _ _, 1; p_alphaW := λ _, 0;
     p_FGen := [(("A", "T1"), 1)];
     p_CGen := λ _ _ _, 50 |}.

Definition at_target_model : Params :=
  {| p_alpha := λ _ _, 1; p_alphaW := λ _, 0;
     p_FGen := [(("A", "T1"), 1)];
     p_CGen := λ _ _ _, 60 |}.

Definition small_flow_model : Params :=
  {| p_alpha := λ _ _, 1; p_alphaW := λ _, 0;
     p_FGen := [(("A", "T1"), 1)];
     p_CGen := λ _ _ _, 100 |}.

Definition lp_optimal_answer (_ : ConcreteModel) : SolverResults * LPValues :=
  ({| status := ok; termination_condition := optimal |},
   {| F := λ _, 0; cumulative_F := 0 |}).

(** A solver answer for [example_model]: all of the two richest sources and
    6 of the 7 bbl/wk of the third. *)
Definition example_answer (_ : ConcreteModel) : SolverResults * LPValues :=
  ({| status := ok; termination_condition := optimal |},
   {| F := λ t, if String.eqb (fst t) "C" then 6 else 7;
      cumulative_F := 20 |}).

(** ** Supplies, and further selections and solver answers *)

(** The weekly flow of all sources, [sum(p_FGen[t] * 7)], in bbl/wk. *)
Definition weekly_supply (model : Params) : Q :=
  Qsum (map (λ tv : Key * Q, snd tv * 7) (p_FGen model)).




(** A solver answers [mm] truthfully when the values that come with a report
    of optimal termination satisfy the bounds and constraints of [mm]. *)
Definition truthful (mm : ConcreteModel) (a : SolverResults * LPValues)
  : Prop :=
  check_optimal_termination (fst a) = true → lp_feasible mm (snd a).

(** A solver that reports every program infeasible. *)
Definition lp_infeasible_answer (_ : ConcreteModel)
  : SolverResults * LPValues :=
  ({| status := warning; termination_condition := infeasible |},
   {| F := λ _, 0; cumulative_F := 0 |}).



(** The values a log reports with [print]. *)
Definition printed_values {Sol} (tr : list (@Event Sol)) : list (string * Q) :=
  omap (λ e, match e with
             | EvPrintValue s v => Some (s, v)
             | _ => None
             end) tr.

(** The activations ([true]) and deactivations ([false]) of objectives in a
    log, in order. *)
Definition objective_events {Sol} (tr : list (@Event Sol))
  : list (ObjName * bool) :=
  omap (λ e, match e with
             | EvObjActivate _ o => Some (o, true)
             | EvObjDeactivate _ o => Some (o, false)
             | _ => None
             end) tr.

(** * Facts about the model's flags *)

Close Scope Q_scope.

Lemma bind_run {St A B} (c : Eff St A) (k : A → Eff St B) (s : St) :
  bind c k s = match c s with
               | (Ok a, s') => k a s'
               | (Raise e, s') => (Raise e, s')
               end.
Proof. reflexivity. Qed.

Section ModelFacts.

Context {Sol : Type}.
Implicit Types (m : @Model Sol).

(** ** What the toggles do to the model *)

Lemma Constraint_activate_fully_active c :
  fully_active (Constraint_activate c).
Proof.
  split; [done|]. intros k b. cbn. rewrite lookup_fmap.
  destruct (members c !! k); cbn; congruence.
Qed.

Lemma Constraint_deactivate_fully_inactive c :
  fully_inactive (Constraint_deactivate c).
Proof.
  split; [done|]. intros k b. cbn. rewrite lookup_fmap.
  destruct (members c !! k); cbn; congruence.
Qed.

Lemma toggle_cons (f : Constraint → Constraint) cs m c :
  (∀ x, f (f x) = f x) →
  cons (toggle f cs m) c = if decide (c ∈ cs) then f (cons m c) else cons m c.
Proof.
  intros Hf. revert m. induction cs as [|c0 cs IH]; intros m.
  - rewrite decide_False by apply not_elem_of_nil. done.
  - unfold toggle in *. cbn [foldl]. rewrite IH. cbn [cons set_con].
    destruct (decide (c = c0)) as [->|Hne].
    + rewrite fn_lookup_insert, Hf.
      rewrite (decide_True (P := c0 ∈ c0 :: cs)) by left.
      by destruct (decide (c0 ∈ cs)).
    + rewrite fn_lookup_insert_ne by done.
      destruct (decide (c ∈ cs)) as [Hin|Hnin].
      * rewrite decide_True by (by right). done.
      * rewrite decide_False; [done|]. rewrite elem_of_cons. by intros [?|?].
Qed.

Lemma toggle_fixed (f : Constraint → Constraint) cs m :
  fixed (toggle f cs m) = fixed m.
Proof.
  revert m. induction cs as [|c0 cs IH]; intros m; [done|].
  unfold toggle in *. cbn [foldl]. by rewrite IH.
Qed.

Lemma Constraint_activate_idemp c :
  Constraint_activate (Constraint_activate c) = Constraint_activate c.
Proof.
  unfold Constraint_activate; cbn. f_equal.
  rewrite <- map_fmap_compose. done.
Qed.

Lemma Constraint_deactivate_idemp c :
  Constraint_deactivate (Constraint_deactivate c) = Constraint_deactivate c.
Proof.
  unfold Constraint_deactivate; cbn. f_equal.
  rewrite <- map_fmap_compose. done.
Qed.

Lemma obj_fix_model_active vars act deact m c :
  c ∈ act → fully_active (cons (obj_fix_model vars act deact m) c).
Proof.
  intros Hc. unfold obj_fix_model.
  rewrite toggle_cons by apply Constraint_activate_idemp.
  rewrite decide_True by done. apply Constraint_activate_fully_active.
Qed.

Lemma obj_fix_model_inactive vars act deact m c :
  c ∈ deact → c ∉ act →
  fully_inactive (cons (obj_fix_model vars act deact m) c).
Proof.
  intros Hc Hn. unfold obj_fix_model.
  rewrite toggle_cons by apply Constraint_activate_idemp.
  rewrite decide_False by done.
  rewrite toggle_cons by apply Constraint_deactivate_idemp.
  rewrite decide_True by done. apply Constraint_deactivate_fully_inactive.
Qed.

Lemma obj_fix_model_fixed vars act deact m :
  vars_fixed_are vars (obj_fix_model vars act deact m).
Proof.
  intros v b. unfold obj_fix_model. rewrite !toggle_fixed. cbn [fixed fix_vars].
  rewrite map_lookup_imap. destruct (fixed m !! v); cbn; congruence.
Qed.

Lemma conclist_not_flowlist c : c ∈ conclist → c ∉ flowlist.
Proof.
  intros H1 H2. apply list_elem_of_In in H1, H2.
  destruct c; cbn in H1, H2; intuition congruence.
Qed.

(** The lists that the two functions hand to [obj_fix] are the ten
    concentration constraints and the eight flow constraints. *)
Lemma conclist_named : conclist = concentration_constraints.
Proof. reflexivity. Qed.

Lemma flowlist_named : flowlist = flow_constraints.
Proof. reflexivity. Qed.

(** The guard of the loop over [Dflow] holds of the keys whose first index is
    ["K1_TW"] or ["K1_CW"], and of no other. *)
Lemma is_K1_spec (k : Key) : is_K1 k = true ↔ k.1 = "K1_TW" ∨ k.1 = "K1_CW".
Proof.
  unfold is_K1. rewrite orb_true_iff, !bool_decide_eq_true. reflexivity.
Qed.

(** ** The loop over [Dflow] *)

Lemma K1_fold_cons ks m c :
  c ≠ Dflow →
  cons (foldl (λ m' k, set_con Dflow (ConstraintData_deactivate k) m') m ks) c
  = cons m c.
Proof.
  intros Hc. revert m. induction ks as [|k ks IH]; intros m; [done|].
  cbn [foldl]. rewrite IH. cbn. by rewrite fn_lookup_insert_ne.
Qed.

Lemma K1_fold_fixed ks m :
  fixed (foldl (λ m' k, set_con Dflow (ConstraintData_deactivate k) m') m ks)
  = fixed m.
Proof.
  revert m. induction ks as [|k ks IH]; intros m; [done|].
  cbn [foldl]. by rewrite IH.
Qed.

Lemma K1_fold_Dflow ks m :
  let c := cons (foldl (λ m' k,
                   set_con Dflow (ConstraintData_deactivate k) m') m ks) Dflow in
  active c = active (cons m Dflow)
  ∧ ∀ k, members c !! k
         = if decide (k ∈ ks) then (λ _, false) <$> members (cons m Dflow) !! k
           else members (cons m Dflow) !! k.
Proof.
  revert m. induction ks as [|k0 ks IH]; intros m; cbn zeta.
  - split; [done|]. intros k. by rewrite decide_False by apply not_elem_of_nil.
  - cbn [foldl]. destruct (IH (set_con Dflow (ConstraintData_deactivate k0) m))
      as [Ha Hm]. split.
    + rewrite Ha. cbn. by rewrite fn_lookup_insert.
    + intros k. rewrite Hm. cbn. rewrite fn_lookup_insert. cbn.
      destruct (decide (k = k0)) as [->|Hne].
      * rewrite lookup_alter_eq.
        rewrite (decide_True (P := k0 ∈ k0 :: ks)) by left.
        destruct (decide (k0 ∈ ks)); [|done].
        by destruct (members (cons m Dflow) !! k0).
      * rewrite lookup_alter_ne by done.
        destruct (decide (k ∈ ks)) as [Hin|Hnin].
        -- by rewrite decide_True by (by right).
        -- rewrite decide_False; [done|]. rewrite elem_of_cons. by intros [?|?].
Qed.

Lemma Dflow_K1_off_members m k b :
  members (cons (Dflow_K1_off m) Dflow) !! k = Some b →
  ∃ b0, members (cons m Dflow) !! k = Some b0
        ∧ b = if is_K1 k then false else b0.
Proof.
  unfold Dflow_K1_off. destruct (K1_fold_Dflow (K1_keys m) m) as [_ Hm].
  rewrite Hm. destruct (decide (k ∈ K1_keys m)) as [Hin|Hnin].
  - unfold K1_keys in Hin. apply list_elem_of_In, filter_In in Hin as [_ HK].
    rewrite HK. destruct (members (cons m Dflow) !! k) as [b0|]; cbn; [|done].
    intros [= <-]. by exists b0.
  - intros Hk. exists b. split; [done|].
    destruct (is_K1 k) eqn:HK; [|done]. exfalso. apply Hnin.
    unfold K1_keys. apply list_elem_of_In, filter_In. split; [|done].
    apply list_elem_of_In, list_elem_of_fmap. exists (k, b). split; [done|].
    by apply elem_of_map_to_list.
Qed.

Lemma K1_keys_spec m k :
  k ∈ K1_keys m ↔ is_K1 k = true ∧ is_Some (members (cons m Dflow) !! k).
Proof.
  unfold K1_keys. rewrite list_elem_of_In, filter_In, <- list_elem_of_In.
  rewrite list_elem_of_fmap. split.
  - intros [([k' b] & -> & Hin) HK]. split; [done|].
    apply elem_of_map_to_list in Hin. by exists b.
  - intros [HK [b Hb]]. split; [|done]. exists (k, b). split; [done|].
    by apply elem_of_map_to_list.
Qed.

(** The loop changes flags only: [Dflow] keeps its members. *)
Lemma Dflow_K1_off_is_Some m k :
  is_Some (members (cons (Dflow_K1_off m) Dflow) !! k)
  ↔ is_Some (members (cons m Dflow) !! k).
Proof.
  unfold Dflow_K1_off. destruct (K1_fold_Dflow (K1_keys m) m) as [_ Hm].
  rewrite Hm. destruct (decide (k ∈ K1_keys m)); [apply fmap_is_Some|done].
Qed.

(** The members the loop deactivates are the members of [Dflow] whose first
    index is ["K1_TW"] or ["K1_CW"]. *)
Lemma K1_keys_named m k :
  k ∈ K1_keys m
  ↔ (k.1 = "K1_TW" ∨ k.1 = "K1_CW")
    ∧ is_Some (members (cons (Dflow_K1_off m) Dflow) !! k).
Proof. by rewrite K1_keys_spec, is_K1_spec, Dflow_K1_off_is_Some. Qed.

Lemma K1_keys_all m : Forall (λ k, k.1 = "K1_TW" ∨ k.1 = "K1_CW") (K1_keys m).
Proof.
  apply Forall_forall. intros k Hk. apply list_elem_of_In in Hk.
  by apply K1_keys_named in Hk as [? _].
Qed.

Lemma TINflow_in_flowlist : TINflow ∈ flowlist.
Proof. apply list_elem_of_In. cbn. tauto. Qed.

Lemma Dflow_in_flowlist : Dflow ∈ flowlist.
Proof. apply list_elem_of_In. cbn. tauto. Qed.

(** ** The shapes the toggles reach *)

Lemma flow_only_reached (m0 : @Model Sol) :
  flow_only (obj_fix_model ["v_C"] flowlist conclist m0).
Proof.
  unfold flow_only. rewrite <- conclist_named, <- flowlist_named.
  split; [|split].
  - intros c Hc. apply obj_fix_model_inactive; [done|].
    by apply conclist_not_flowlist.
  - intros c Hc. by apply obj_fix_model_active.
  - apply obj_fix_model_fixed.
Qed.

Lemma toggling_reversed_reached (m0 : @Model Sol) :
  toggling_reversed (obj_fix_model [] (conclist ++ flowlist) [] m0).
Proof.
  unfold toggling_reversed. rewrite <- conclist_named, <- flowlist_named.
  split; [|split].
  - intros c Hc. apply obj_fix_model_active. apply elem_of_app. by left.
  - intros c Hc. apply obj_fix_model_active. apply elem_of_app. by right.
  - apply obj_fix_model_fixed.
Qed.

Lemma recovery_shape_reached (m0 : @Model Sol) :
  recovery_shape
    (Dflow_K1_off
       (set_con TINflow Constraint_deactivate
          (obj_fix_model [] (conclist ++ flowlist) [] m0))).
Proof.
  remember (obj_fix_model [] (conclist ++ flowlist) [] m0) as m2 eqn:Hm2.
  remember (set_con TINflow Constraint_deactivate m2) as m3 eqn:Hm3.
  assert (Hact : ∀ c : ConName, c ∈ (conclist ++ flowlist)%list → c ≠ TINflow →
                 fully_active (cons m3 c)).
  { intros c Hc Hne. subst m3. cbn [cons set_con].
    rewrite fn_lookup_insert_ne by (intros Heq; apply Hne; symmetry; exact Heq).
    subst m2. apply obj_fix_model_active. exact Hc. }
  assert (Hfix : vars_fixed_are [] m3).
  { subst m3 m2. intros v b. cbn [fixed set_con]. apply obj_fix_model_fixed. }
  assert (Htin : fully_inactive (cons m3 TINflow)).
  { subst m3. cbn [cons set_con]. rewrite fn_lookup_insert.
    apply Constraint_deactivate_fully_inactive. }
  assert (HD : fully_active (cons m3 Dflow)).
  { apply Hact; [|discriminate]. apply elem_of_app. right.
    apply Dflow_in_flowlist. }
  clear Hm2 Hm3. unfold recovery_shape, Dflow_K1_off.
  rewrite <- conclist_named, <- flowlist_named.
  split; [|split; [|split; [|split; [|split]]]].
  - intros c Hc.
    assert (c ≠ Dflow) as Hd.
    { intros ->. exact (conclist_not_flowlist _ Hc Dflow_in_flowlist). }
    assert (c ≠ TINflow) as Ht.
    { intros ->. exact (conclist_not_flowlist _ Hc TINflow_in_flowlist). }
    rewrite K1_fold_cons by exact Hd.
    apply Hact; [apply elem_of_app; left; exact Hc|exact Ht].
  - intros c Hc H1 H2. rewrite K1_fold_cons by exact H2.
    apply Hact; [apply elem_of_app; right; exact Hc|exact H1].
  - rewrite K1_fold_cons by discriminate. exact Htin.
  - destruct (K1_fold_Dflow (K1_keys m3) m3) as [Ha _].
    rewrite Ha. apply HD.
  - intros k b Hk. apply (Dflow_K1_off_members m3) in Hk as (b0 & Hb0 & ->).
    destruct HD as [_ HD]. rewrite (HD _ _ Hb0). split.
    + intros HK. apply is_K1_spec in HK. by rewrite HK.
    + intros H1 H2. destruct (is_K1 k) eqn:HK; [|done].
      apply is_K1_spec in HK as [HK|HK]; contradiction.
  - intros v b. rewrite K1_fold_fixed. apply Hfix.
Qed.

Lemma load_solution_reversed (s : Sol) m :
  toggling_reversed m → toggling_reversed (load_solution s m).
Proof. unfold toggling_reversed, vars_fixed_are. cbn [load_solution cons fixed]. done. Qed.

Lemma load_solution_recovery_shape (s : Sol) m :
  recovery_shape m → recovery_shape (load_solution s m).
Proof. unfold recovery_shape, vars_fixed_are. cbn [load_solution cons fixed]. done. Qed.

End ModelFacts.

(** * Facts about the staged solves *)

Section StagedFacts.

Context {Data Sol : Type}.
Variable build_qcp_br : Data → @Model Sol.
Variable ipopt : Options → @Model Sol → SolverResults * Sol.
Variable treat_rev : @Model Sol → Q.

Implicit Types (w : @World Sol) (m : @Model Sol) (l : loc).

Local Abbreviation co_first' := (co_first build_qcp_br).
Local Abbreviation co_second' := (co_second build_qcp_br ipopt).
Local Abbreviation co_final' := (co_final build_qcp_br ipopt).
Local Abbreviation co_stage1' := (co_stage1 build_qcp_br ipopt).
Local Abbreviation co_stage2' := (co_stage2 build_qcp_br ipopt).
Local Abbreviation mr_first' := (mr_first build_qcp_br).
Local Abbreviation mr_reactivated' := (mr_reactivated build_qcp_br ipopt).
Local Abbreviation mr_second' := (mr_second build_qcp_br ipopt).
Local Abbreviation mr_final' := (mr_final build_qcp_br ipopt).
Local Abbreviation mr_stage1' := (mr_stage1 build_qcp_br ipopt).
Local Abbreviation mr_stage2' := (mr_stage2 build_qcp_br ipopt).

Lemma update_insert l f m (h : gmap loc Model) lg :
  update l f {| heap := <[l := m]> h; log := lg |}
  = (Ok tt, {| heap := <[l := f m]> h; log := lg |}).
Proof. unfold update; cbn [heap log]. by rewrite alter_insert_eq. Qed.

Lemma emit_run (e : @Event Sol) (h : gmap loc Model) lg :
  emit e {| heap := h; log := lg |} = (Ok tt, {| heap := h; log := lg ++ [e] |}).
Proof. reflexivity. Qed.

Lemma print_run s (h : gmap loc (@Model Sol)) lg :
  print s {| heap := h; log := lg |}
  = (Ok tt, {| heap := h; log := lg ++ [EvPrint s] |}).
Proof. reflexivity. Qed.

Lemma build_run data w :
  build build_qcp_br data w
  = (Ok (fresh (dom (heap w))),
     {| heap := <[fresh (dom (heap w)) := build_qcp_br data]> (heap w);
        log := log w ++ [EvBuild (fresh (dom (heap w)))] |}).
Proof. reflexivity. Qed.

Lemma solve_insert o t l m (h : gmap loc Model) lg :
  solve ipopt o t l {| heap := <[l := m]> h; log := lg |}
  = (Ok (ipopt o m).1,
     {| heap := <[l := load_solution (ipopt o m).2 m]> h;
        log := lg ++ [EvSolve l o t m (ipopt o m).1] |}).
Proof.
  unfold solve; cbn [heap log]. rewrite lookup_insert_eq.
  destruct (ipopt o m) as [r s]; cbn [fst snd]. by rewrite insert_insert_eq.
Qed.

Lemma keys_insert l c m (h : gmap loc Model) lg :
  keys l c {| heap := <[l := m]> h; log := lg |}
  = (Ok (map_to_list (members (cons m c))).*1,
     {| heap := <[l := m]> h; log := lg |}).
Proof. unfold keys; cbn [heap]. by rewrite lookup_insert_eq. Qed.

Ltac run_prim :=
  first [ rewrite update_insert | rewrite emit_run | rewrite print_run
        | rewrite solve_insert | rewrite keys_insert | rewrite build_run ].

Ltac run_step := rewrite bind_run; run_prim; cbv beta iota.

Lemma obj_fix_insert l vars act deact m (h : gmap loc Model) lg :
  obj_fix l vars act deact {| heap := <[l := m]> h; log := lg |}
  = (Ok l, {| heap := <[l := obj_fix_model vars act deact m]> h;
              log := lg ++ [EvObjFix l vars act deact] |}).
Proof. unfold obj_fix. do 2 run_step. reflexivity. Qed.

Lemma Objective_deactivate_insert l o m (h : gmap loc Model) lg :
  Objective_deactivate l o {| heap := <[l := m]> h; log := lg |}
  = (Ok tt, {| heap := <[l := set_obj o false m]> h;
               log := lg ++ [EvObjDeactivate l o] |}).
Proof. unfold Objective_deactivate. run_step. by rewrite emit_run. Qed.

Lemma Objective_activate_insert l o m (h : gmap loc Model) lg :
  Objective_activate l o {| heap := <[l := m]> h; log := lg |}
  = (Ok tt, {| heap := <[l := set_obj o true m]> h;
               log := lg ++ [EvObjActivate l o] |}).
Proof. unfold Objective_activate. run_step. by rewrite emit_run. Qed.

Lemma deactivate_insert l c m (h : gmap loc Model) lg :
  deactivate l c {| heap := <[l := m]> h; log := lg |}
  = (Ok tt, {| heap := <[l := set_con c Constraint_deactivate m]> h;
               log := lg ++ [EvDeactivate l c] |}).
Proof. unfold deactivate. run_step. by rewrite emit_run. Qed.

Lemma deactivate_data_insert l c k m (h : gmap loc Model) lg :
  deactivate_data l c k {| heap := <[l := m]> h; log := lg |}
  = (Ok tt, {| heap := <[l := set_con c (ConstraintData_deactivate k) m]> h;
               log := lg ++ [EvDeactivateData l c k] |}).
Proof. unfold deactivate_data. run_step. by rewrite emit_run. Qed.

Lemma for_each_K1 l ks m (h : gmap loc Model) lg :
  for_each ks (λ k, if is_K1 k then deactivate_data l Dflow k else ret tt)
    {| heap := <[l := m]> h; log := lg |}
  = (Ok tt,
     {| heap := <[l := foldl (λ m' k,
                          set_con Dflow (ConstraintData_deactivate k) m')
                        m (List.filter is_K1 ks)]> h;
        log := lg ++ map (EvDeactivateData l Dflow) (List.filter is_K1 ks) |}).
Proof.
  revert m lg. induction ks as [|k ks IH]; intros m lg; cbn [for_each List.filter].
  - unfold ret. cbn [foldl map]. by rewrite app_nil_r.
  - rewrite bind_run. destruct (is_K1 k).
    + rewrite deactivate_data_insert. cbv beta iota. rewrite IH. cbn [foldl map].
      by rewrite <- app_assoc.
    + unfold ret at 1. cbv beta iota. by rewrite IH.
Qed.

Ltac run_call :=
  rewrite bind_run;
  first [ run_prim | rewrite obj_fix_insert | rewrite Objective_deactivate_insert
        | rewrite Objective_activate_insert | rewrite deactivate_insert
        | rewrite for_each_K1 ];
  cbv beta iota.

Lemma cost_optimal_run data tee w :
  let l := fresh (dom (heap w)) in
  cost_optimal build_qcp_br ipopt data tee w =
  if check_optimal_termination (ipopt [] (co_first' data)).1 then
    (if check_optimal_termination (ipopt co_options (co_second' data)).1
     then Ok l else Raise RuntimeError,
     {| heap := <[l := co_final' data]> (heap w);
        log := log w ++ co_stage1' l tee data ++ co_stage2' l tee data |})
  else
    (Raise RuntimeError,
     {| heap := <[l := load_solution (ipopt [] (co_first' data)).2
                         (co_first' data)]> (heap w);
        log := log w ++ co_stage1' l tee data |}).
Proof.
  intros l. unfold cost_optimal. do 4 run_call. fold l (co_first' data).
  rewrite bind_run. unfold assert_optimal_termination.
  destruct (check_optimal_termination (ipopt [] (co_first' data)).1).
  - unfold ret at 1. cbv beta iota. do 3 run_call.
    fold co_options (co_second' data) (co_final' data). rewrite bind_run.
    destruct (check_optimal_termination (ipopt co_options (co_second' data)).1);
      unfold ret, raise, co_stage1', co_stage2';
      rewrite <- !app_assoc; reflexivity.
  - unfold raise, co_stage1'. rewrite <- !app_assoc. reflexivity.
Qed.

Lemma max_recovery_run data tee w :
  let l := fresh (dom (heap w)) in
  max_recovery_with_infrastructure build_qcp_br ipopt treat_rev data tee w =
  if check_optimal_termination (ipopt [] (mr_first' data)).1 then
    if check_optimal_termination (ipopt mr_options (mr_second' data)).1 then
      (Ok l,
       {| heap := <[l := mr_final' data]> (heap w);
          log := log w ++ mr_stage1' l tee data ++ mr_stage2' l tee data
                 ++ [EvPrintValue
                       "Max lithium revenue with existing infrastructure:"
                       (treat_rev (mr_final' data))] |})
    else
      (Raise RuntimeError,
       {| heap := <[l := mr_final' data]> (heap w);
          log := log w ++ mr_stage1' l tee data ++ mr_stage2' l tee data |})
  else
    (Raise RuntimeError,
     {| heap := <[l := load_solution (ipopt [] (mr_first' data)).2
                         (mr_first' data)]> (heap w);
        log := log w ++ mr_stage1' l tee data |}).
Proof.
  intros l. unfold max_recovery_with_infrastructure. do 7 run_call.
  fold l (mr_first' data).
  rewrite bind_run. unfold assert_optimal_termination.
  destruct (check_optimal_termination (ipopt [] (mr_first' data)).1).
  - unfold ret at 1. cbv beta iota. do 5 run_call.
    fold (mr_reactivated' data) (K1_keys (mr_reactivated' data)).
    fold (Dflow_K1_off (mr_reactivated' data)). fold (mr_second' data).
    run_call. fold mr_options (mr_final' data).
    rewrite bind_run.
    destruct (check_optimal_termination (ipopt mr_options (mr_second' data)).1).
    + unfold ret at 1. cbv beta iota. rewrite bind_run.
      unfold print_treat_rev. cbn [heap].
      rewrite lookup_insert_eq, emit_run. unfold ret, mr_stage1', mr_stage2'.
      rewrite <- !app_assoc. reflexivity.
    + unfold raise, mr_stage1', mr_stage2'. rewrite <- !app_assoc. reflexivity.
  - unfold raise, mr_stage1'. rewrite <- !app_assoc. reflexivity.
Qed.

(** ** The shapes reached by the two functions *)

Lemma co_first_flow_only data : flow_only (co_first' data).
Proof. unfold co_first. apply flow_only_reached. Qed.

Lemma co_second_reversed data : toggling_reversed (co_second' data).
Proof. unfold co_second. apply toggling_reversed_reached. Qed.

Lemma co_final_reversed data : toggling_reversed (co_final' data).
Proof.
  unfold co_final. apply load_solution_reversed, co_second_reversed.
Qed.

Lemma mr_first_flow_only data : flow_only (mr_first' data).
Proof. unfold mr_first. apply flow_only_reached. Qed.

Lemma mr_second_shape data : recovery_shape (mr_second' data).
Proof. unfold mr_second, mr_reactivated. apply recovery_shape_reached. Qed.

Lemma mr_final_shape data : recovery_shape (mr_final' data).
Proof.
  unfold mr_final. apply load_solution_recovery_shape, mr_second_shape.
Qed.

(** ** Outcome, events and store of the two functions *)

Lemma suffix_from_app {E} (before new : list E) :
  suffix_from before (before ++ new) = new.
Proof. apply drop_app_length. Qed.

(** [cost_optimal] *)

Lemma co_events data tee w :
  suffix_from (log w) (log (cost_optimal build_qcp_br ipopt data tee w).2)
  = co_stage1 build_qcp_br ipopt (fresh (dom (heap w))) tee data
    ++ (if co_ok1 build_qcp_br ipopt data
        then co_stage2 build_qcp_br ipopt (fresh (dom (heap w))) tee data
        else []).
Proof.
  rewrite cost_optimal_run. unfold co_ok1. cbv zeta.
  destruct (check_optimal_termination _); cbn [snd log];
    rewrite suffix_from_app; [done | by rewrite app_nil_r].
Qed.

Lemma co_result data tee w :
  (cost_optimal build_qcp_br ipopt data tee w).1
  = if co_ok1 build_qcp_br ipopt data && co_ok2 build_qcp_br ipopt data then Ok (fresh (dom (heap w)))
    else Raise RuntimeError.
Proof.
  rewrite cost_optimal_run. unfold co_ok1, co_ok2. cbv zeta.
  by repeat destruct (check_optimal_termination _).
Qed.

Lemma co_heap data tee w :
  heap (cost_optimal build_qcp_br ipopt data tee w).2
  = <[fresh (dom (heap w)) :=
        if co_ok1 build_qcp_br ipopt data then co_final build_qcp_br ipopt data
        else load_solution (ipopt [] (co_first build_qcp_br data)).2
               (co_first build_qcp_br data)]> (heap w).
Proof.
  rewrite cost_optimal_run. unfold co_ok1. cbv zeta.
  by destruct (check_optimal_termination _).
Qed.

(** [max_recovery_with_infrastructure] *)

Lemma mr_events data tee w :
  suffix_from (log w)
    (log (max_recovery_with_infrastructure build_qcp_br ipopt treat_rev
            data tee w).2)
  = mr_stage1 build_qcp_br ipopt (fresh (dom (heap w))) tee data
    ++ (if mr_ok1 build_qcp_br ipopt data
        then mr_stage2 build_qcp_br ipopt (fresh (dom (heap w))) tee data
             ++ mr_tail build_qcp_br ipopt treat_rev data
        else []).
Proof.
  rewrite max_recovery_run. unfold mr_ok1, mr_tail, mr_ok2. cbv zeta.
  destruct (check_optimal_termination (ipopt [] _).1).
  - destruct (check_optimal_termination _); cbn [snd log];
      rewrite suffix_from_app; [done | by rewrite app_nil_r].
  - cbn [snd log]. rewrite suffix_from_app. by rewrite app_nil_r.
Qed.

Lemma mr_result data tee w :
  (max_recovery_with_infrastructure build_qcp_br ipopt treat_rev data tee w).1
  = if mr_ok1 build_qcp_br ipopt data && mr_ok2 build_qcp_br ipopt data then Ok (fresh (dom (heap w)))
    else Raise RuntimeError.
Proof.
  rewrite max_recovery_run. unfold mr_ok1, mr_ok2. cbv zeta.
  by repeat destruct (check_optimal_termination _).
Qed.

Lemma mr_heap data tee w :
  heap (max_recovery_with_infrastructure build_qcp_br ipopt treat_rev
          data tee w).2
  = <[fresh (dom (heap w)) :=
        if mr_ok1 build_qcp_br ipopt data then mr_final build_qcp_br ipopt data
        else load_solution (ipopt [] (mr_first build_qcp_br data)).2
               (mr_first build_qcp_br data)]> (heap w).
Proof.
  rewrite max_recovery_run. unfold mr_ok1. cbv zeta.
  by repeat destruct (check_optimal_termination _).
Qed.

End StagedFacts.

Lemma hard_stop_last {E A} (failed : E → Prop) init x (res : Res A) :
  Forall (λ e, ¬ failed e) init →
  (failed x → res = Raise RuntimeError) →
  (¬ failed x → res ≠ Raise RuntimeError) →
  hard_stop failed (init ++ [x]) res.
Proof.
  intros Hinit Hx Hnx. split.
  - intros pre e post Heq He.
    destruct post as [|y post _] using rev_ind.
    + apply app_inj_tail in Heq as [_ <-]. auto.
    + exfalso. change (e :: post ++ [y]) with ((e :: post) ++ [y]) in Heq.
      rewrite app_assoc in Heq. apply app_inj_tail in Heq as [-> _].
      apply Forall_app in Hinit as [_ Hinit].
      apply Forall_inv in Hinit. by apply Hinit.
  - intros Hall. apply Hnx, Hall. apply elem_of_app. right. by left.
Qed.

Lemma hard_stop_at {E A} (failed : E → Prop) tr init x (res : Res A) :
  tr = init ++ [x] →
  Forall (λ e, ¬ failed e) init →
  (failed x → res = Raise RuntimeError) →
  (¬ failed x → res ≠ Raise RuntimeError) →
  hard_stop failed tr res.
Proof. intros ->. apply hard_stop_last. Qed.

Lemma hard_stop_nil {E A} (failed : E → Prop) (res : Res A) :
  res ≠ Raise RuntimeError → hard_stop failed [] res.
Proof.
  intros Hres. split; [|done]. intros pre e post Heq. by destruct pre.
Qed.

(** * The claims about the staged solves *)

Section StagedClaims.

Context {Data Sol : Type}.
Variable build_qcp_br : Data → @Model Sol.
Variable ipopt : Options → @Model Sol → SolverResults * Sol.
Variable treat_rev : @Model Sol → Q.

Implicit Types (w : @World Sol) (m : @Model Sol) (l : loc).

Local Abbreviation cost_optimal' := (cost_optimal build_qcp_br ipopt).
Local Abbreviation max_recovery' :=
  (max_recovery_with_infrastructure build_qcp_br ipopt treat_rev).
Local Abbreviation co_ok1' := (co_ok1 build_qcp_br ipopt).
Local Abbreviation co_ok2' := (co_ok2 build_qcp_br ipopt).
Local Abbreviation mr_ok1' := (mr_ok1 build_qcp_br ipopt).
Local Abbreviation mr_ok2' := (mr_ok2 build_qcp_br ipopt).

Lemma solves_deactivations l c ks :
  solves (map (EvDeactivateData (Sol := Sol) l c) ks) = [].
Proof. induction ks as [|k ks IH]; [done|]. cbn. exact IH. Qed.

Lemma builds_deactivations l c ks :
  builds (map (EvDeactivateData (Sol := Sol) l c) ks) = [].
Proof. induction ks as [|k ks IH]; [done|]. cbn. exact IH. Qed.

Lemma co_solves data tee w :
  solves (suffix_from (log w) (log (cost_optimal' data tee w).2))
  = (co_first build_qcp_br data, (ipopt [] (co_first build_qcp_br data)).1)
    :: (if co_ok1' data
        then [(co_second build_qcp_br ipopt data,
               (ipopt co_options (co_second build_qcp_br ipopt data)).1)]
        else []).
Proof. rewrite co_events. by destruct (co_ok1' data). Qed.

Lemma mr_solves data tee w :
  solves (suffix_from (log w) (log (max_recovery' data tee w).2))
  = (mr_first build_qcp_br data, (ipopt [] (mr_first build_qcp_br data)).1)
    :: (if mr_ok1' data
        then [(mr_second build_qcp_br ipopt data,
               (ipopt mr_options (mr_second build_qcp_br ipopt data)).1)]
        else []).
Proof.
  rewrite mr_events. unfold solves. rewrite omap_app.
  destruct (mr_ok1' data); [|done].
  unfold mr_stage2, mr_tail. rewrite !omap_app.
  fold (solves (map (EvDeactivateData (Sol := Sol) (fresh (dom (heap w))) Dflow)
                  (K1_keys (mr_reactivated build_qcp_br ipopt data)))).
  rewrite solves_deactivations. by destruct (mr_ok2 _ _ _).
Qed.

(** C5: in [cost_optimal], for every input, the model that the first solve
    sees has [MSconc], [Pconc], [Cconc], [Sconc], [Wconc], [TINconc],
    [NTTWconc], [NTCWconc], [NTSrcconc] and [minconccon] inactive and ["v_C"]
    fixed; the model that the second solve sees and the model returned to
    the caller have each of these ten constraints and each of [Cflow],
    [noinvflow], [Sinv], [Dflow], [Wflow], [TINflow], [NTTWflow] and
    [NTCWflow] active (container and members) and no variable fixed, ["v_C"]
    included; and the second solve does take place whenever the first solve
    reports an optimal termination. *)
Theorem cost_optimal_reverses_toggling data tee w :
  let out := cost_optimal' data tee w in
  let tr := suffix_from (log w) (log out.2) in
  (∀ m r, solves tr !! 0%nat = Some (m, r) → flow_only m)
  ∧ (∀ m r, solves tr !! 1%nat = Some (m, r) → toggling_reversed m)
  ∧ (∀ l, out.1 = Ok l →
          ∃ m, heap out.2 !! l = Some m ∧ toggling_reversed m)
  ∧ (∀ m r, solves tr !! 0%nat = Some (m, r) →
            check_optimal_termination r = true →
            is_Some (solves tr !! 1%nat)).
Proof.
  cbv zeta. rewrite co_solves, co_result, co_heap. split; [|split; [|split]].
  - intros m r [= <- _]. apply co_first_flow_only.
  - intros m r. unfold co_ok1. destruct (check_optimal_termination _).
    + intros [= <- _]. apply co_second_reversed.
    + intros [=].
  - intros l. unfold co_ok1, co_ok2.
    destruct (check_optimal_termination (ipopt [] _).1); [|intros [=]].
    destruct (check_optimal_termination _); intros [= <-].
    eexists. split; [apply lookup_insert_eq|]. apply co_final_reversed.
  - intros m r [= <- <-] Hr. change (co_ok1' data = true) in Hr. rewrite Hr.
    by eexists.
Qed.

Lemma no_failed_deactivations l c ks :
  Forall (λ e, ¬ failed_solve e) (map (EvDeactivateData (Sol := Sol) l c) ks).
Proof. apply Forall_fmap, Forall_forall. intros k _. cbn. tauto. Qed.

Lemma co_hard_stop data tee w :
  hard_stop failed_solve
    (suffix_from (log w) (log (cost_optimal' data tee w).2))
    (cost_optimal' data tee w).1.
Proof.
  rewrite co_events, co_result. unfold co_stage1, co_stage2.
  destruct (co_ok1' data) eqn:H1; cbn [andb].
  - match goal with |- hard_stop _ (?a ++ ?b) _ =>
      change (a ++ b) with ((a ++ [EvObjFix (fresh (dom (heap w))) []
                                     (conclist ++ flowlist) [];
                                   EvPrint "   ... running bilinear model"])
                            ++ [EvSolve (fresh (dom (heap w))) co_options tee
                                  (co_second build_qcp_br ipopt data)
                                  (ipopt co_options
                                     (co_second build_qcp_br ipopt data)).1])
    end.
    apply hard_stop_last.
    + repeat first [apply List.Forall_nil | apply List.Forall_cons];
        cbn [failed_solve]; try tauto.
      unfold co_ok1 in H1. by rewrite H1.
    + cbn [failed_solve]. fold (co_ok2' data). by intros ->.
    + cbn [failed_solve]. fold (co_ok2' data). by destruct (co_ok2' data).
  - rewrite app_nil_r.
    match goal with |- hard_stop _ ?a _ =>
      change a with ([EvBuild (fresh (dom (heap w)));
                      EvObjFix (fresh (dom (heap w))) ["v_C"] flowlist conclist;
                      EvPrint "   ... running linear flow model"]
                     ++ [EvSolve (fresh (dom (heap w))) [] tee
                           (co_first build_qcp_br data)
                           (ipopt [] (co_first build_qcp_br data)).1])
    end.
    apply hard_stop_last.
    + repeat first [apply List.Forall_nil | apply List.Forall_cons];
        cbn [failed_solve]; tauto.
    + done.
    + cbn [failed_solve]. unfold co_ok1 in H1. by rewrite H1.
Qed.

Lemma mr_hard_stop data tee w :
  hard_stop failed_solve
    (suffix_from (log w) (log (max_recovery' data tee w).2))
    (max_recovery' data tee w).1.
Proof.
  rewrite mr_events, mr_result. unfold mr_stage1, mr_stage2, mr_tail.
  set (l := fresh (dom (heap w))).
  destruct (mr_ok1' data) eqn:H1; cbn [andb].
  - destruct (mr_ok2' data) eqn:H2.
    + eapply (hard_stop_at _ _
                (mr_stage1 build_qcp_br ipopt l tee data
                 ++ mr_stage2 build_qcp_br ipopt l tee data)).
      * unfold mr_stage1, mr_stage2. by rewrite <- ?app_assoc.
      * unfold mr_stage1, mr_stage2.
        repeat first [ apply Forall_app; split
                     | apply no_failed_deactivations
                     | apply List.Forall_nil | apply List.Forall_cons ];
          cbn [failed_solve]; try tauto.
        -- unfold mr_ok1 in H1. by rewrite H1.
        -- unfold mr_ok2 in H2. by rewrite H2.
      * cbn [failed_solve]. tauto.
      * done.
    + eapply (hard_stop_at _ _
                (mr_stage1 build_qcp_br ipopt l tee data
                 ++ [EvObjFix l [] (conclist ++ flowlist) [];
                     EvDeactivate l TINflow]
                 ++ map (EvDeactivateData l Dflow)
                      (K1_keys (mr_reactivated build_qcp_br ipopt data))
                 ++ [EvPrint "   ... running bilinear model"])).
      * unfold mr_stage1. rewrite <- ?app_assoc, ?app_nil_r. reflexivity.
      * unfold mr_stage1.
        repeat first [ apply Forall_app; split
                     | apply no_failed_deactivations
                     | apply List.Forall_nil | apply List.Forall_cons ];
          cbn [failed_solve]; try tauto.
        unfold mr_ok1 in H1. by rewrite H1.
      * done.
      * cbn [failed_solve]. unfold mr_ok2 in H2. by rewrite H2.
  - eapply (hard_stop_at _ _
              [EvBuild l; EvObjDeactivate l obj; EvObjDeactivate l br_obj;
               EvObjActivate l treatment_only_obj;
               EvObjFix l ["v_C"] flowlist conclist;
               EvPrint "   ... running linear flow model"]).
    + by rewrite app_nil_r.
    + repeat first [apply List.Forall_nil | apply List.Forall_cons];
        cbn [failed_solve]; tauto.
    + done.
    + cbn [failed_solve]. unfold mr_ok1 in H1. by rewrite H1.
Qed.

Lemma fresh_unallocated w : heap w !! fresh (dom (heap w)) = None.
Proof. apply not_elem_of_dom, is_fresh. Qed.

(** C7: in both staged functions exactly one model is built, at a fresh
    address [l]; every operation and both solves act on [l]; [l] is what is
    returned; the rest of the store is untouched; and [obj_fix] returns the
    address it was given. *)
Theorem one_model_object_through_every_stage data tee w :
  let l := fresh (dom (heap w)) in
  single_object l w (cost_optimal' data tee w)
  ∧ single_object l w (max_recovery' data tee w)
  ∧ (∀ l0 vars act deact w0, (obj_fix l0 vars act deact w0).1 = Ok l0).
Proof.
  cbv zeta. set (l := fresh (dom (heap w))). split; [|split].
  - unfold single_object. cbv zeta.
    rewrite co_events, co_result, co_heap. fold l.
    split; [|split; [|split; [|split]]].
    + by destruct (co_ok1' data).
    + unfold co_stage1, co_stage2. destruct (co_ok1' data);
        repeat first [ apply Forall_app; split
                     | apply List.Forall_nil | apply List.Forall_cons ];
        cbn [event_loc]; congruence.
    + intros l'. destruct (_ && _); congruence.
    + apply fresh_unallocated.
    + intros l' Hne. by rewrite lookup_insert_ne.
  - unfold single_object. cbv zeta.
    rewrite mr_events, mr_result, mr_heap. fold l.
    split; [|split; [|split; [|split]]].
    + unfold builds. rewrite omap_app. destruct (mr_ok1' data); [|done].
      unfold mr_stage2, mr_tail. rewrite !omap_app.
      fold (builds (map (EvDeactivateData (Sol := Sol) l Dflow)
                      (K1_keys (mr_reactivated build_qcp_br ipopt data)))).
      rewrite builds_deactivations. by destruct (mr_ok2 _ _ _).
    + unfold mr_stage1, mr_stage2, mr_tail.
      destruct (mr_ok1' data); [destruct (mr_ok2' data)|];
        repeat first [ apply Forall_app; split
                     | apply Forall_fmap, Forall_forall; intros k _
                     | apply List.Forall_nil | apply List.Forall_cons ];
        unfold compose; cbn [event_loc]; congruence.
    + intros l'. destruct (_ && _); congruence.
    + apply fresh_unallocated.
    + intros l' Hne. by rewrite lookup_insert_ne.
  - reflexivity.
Qed.

(** C6: in [max_recovery_with_infrastructure], the model that the second
    solve sees has the ten concentration constraints and the flow constraints
    active again and no variable fixed, except that [TINflow] is off and every
    [Dflow[k]] with [k[0]] equal to ["K1_TW"] or ["K1_CW"] is off (the other
    members of [Dflow] are on); in the log the reactivating [obj_fix] comes
    first, then the deactivation of [TINflow], then those of the members of
    [Dflow] whose first index is ["K1_TW"] or ["K1_CW"], all of them and no
    other, then the solve; and the returned model still has that shape. *)
Theorem max_recovery_second_stage data tee w :
  let l := fresh (dom (heap w)) in
  let out := max_recovery' data tee w in
  let tr := suffix_from (log w) (log out.2) in
  (∀ m r, solves tr !! 1%nat = Some (m, r) →
     recovery_shape m
     ∧ ∃ pre ks post,
         tr = pre
              ++ [EvObjFix l []
                    (concentration_constraints ++ flow_constraints) [];
                  EvDeactivate l TINflow]
              ++ map (EvDeactivateData l Dflow) ks
              ++ [EvPrint "   ... running bilinear model";
                  EvSolve l mr_options tee m r]
              ++ post
         ∧ length (solves pre) = 1%nat
         ∧ (∀ k, k ∈ ks ↔ (k.1 = "K1_TW" ∨ k.1 = "K1_CW")
                          ∧ is_Some (members (cons m Dflow) !! k))
         ∧ solves post = [])
  ∧ (∀ l', out.1 = Ok l' →
           ∃ m, heap out.2 !! l' = Some m ∧ recovery_shape m)
  ∧ (∀ m r, solves tr !! 0%nat = Some (m, r) →
            check_optimal_termination r = true →
            is_Some (solves tr !! 1%nat)).
Proof.
  cbv zeta. rewrite mr_solves, mr_result, mr_heap, mr_events.
  split; [|split].
  - intros m r. destruct (mr_ok1' data); [|intros [=]].
    intros [= <- <-]. split; [apply mr_second_shape|].
    exists (mr_stage1 build_qcp_br ipopt (fresh (dom (heap w))) tee data),
           (K1_keys (mr_reactivated build_qcp_br ipopt data)),
           (mr_tail build_qcp_br ipopt treat_rev data).
    split; [|split; [|split]].
    + unfold mr_stage2. by rewrite <- ?app_assoc.
    + done.
    + intros k. unfold mr_second. apply K1_keys_named.
    + unfold mr_tail. by destruct (mr_ok2' data).
  - intros l'. unfold mr_ok1, mr_ok2.
    destruct (check_optimal_termination (ipopt [] _).1); [|intros [=]].
    destruct (check_optimal_termination _); intros [= <-].
    eexists. split; [apply lookup_insert_eq|]. apply mr_final_shape.
  - intros m r [= <- <-] Hr. change (mr_ok1' data = true) in Hr. rewrite Hr.
    by eexists.
Qed.

(** C1, as amended: for every input, both staged functions build the model,
    have [obj_fix] deactivate the ten concentration constraints and fix
    ["v_C"], and hand the model so obtained to the external solver.  When that
    first solve reports an optimal termination the log is exactly the staged
    sequence: [obj_fix] then reactivates the ten constraints and unfixes, and
    the external solver is run a second time, on models of the stated shapes.
    When it does not, the log ends with that first solve and the function
    raises [RuntimeError]. *)
Theorem staged_sequence_unless_first_solve_fails data tee w :
  let l := fresh (dom (heap w)) in
  let out_c := cost_optimal' data tee w in
  let out_r := max_recovery' data tee w in
  let tr_c := suffix_from (log w) (log out_c.2) in
  let tr_r := suffix_from (log w) (log out_r.2) in
  (∃ m r, solves tr_c !! 0%nat = Some (m, r)
          ∧ (check_optimal_termination r = true →
             cost_optimal_sequence ipopt l tee tr_c)
          ∧ (check_optimal_termination r = false →
             cost_optimal_first_stage ipopt l tee tr_c
             ∧ out_c.1 = Raise RuntimeError))
  ∧ (∃ m r, solves tr_r !! 0%nat = Some (m, r)
            ∧ (check_optimal_termination r = true →
               max_recovery_sequence ipopt l tee tr_r)
            ∧ (check_optimal_termination r = false →
               max_recovery_first_stage ipopt l tee tr_r
               ∧ out_r.1 = Raise RuntimeError)).
Proof.
  cbv zeta.
  unfold cost_optimal_sequence, max_recovery_sequence,
    cost_optimal_first_stage, max_recovery_first_stage.
  split.
  - rewrite co_solves, co_events, co_result.
    exists (co_first build_qcp_br data),
           (ipopt [] (co_first build_qcp_br data)).1.
    split; [done|].
    change (check_optimal_termination (ipopt [] (co_first build_qcp_br data)).1)
      with (co_ok1' data).
    split; intros H; rewrite H.
    + exists (co_first build_qcp_br data), (co_second build_qcp_br ipopt data).
      split; [done|].
      split; [apply co_first_flow_only|apply co_second_reversed].
    + split; [|done]. exists (co_first build_qcp_br data).
      split; [by rewrite app_nil_r|apply co_first_flow_only].
  - rewrite mr_solves, mr_events, mr_result.
    exists (mr_first build_qcp_br data),
           (ipopt [] (mr_first build_qcp_br data)).1.
    split; [done|].
    change (check_optimal_termination (ipopt [] (mr_first build_qcp_br data)).1)
      with (mr_ok1' data).
    split; intros H; rewrite H.
    + exists (mr_first build_qcp_br data), (mr_second build_qcp_br ipopt data),
             (K1_keys (mr_reactivated build_qcp_br ipopt data)),
             (mr_tail build_qcp_br ipopt treat_rev data).
      split; [|split; [|split; [|split]]].
      * unfold mr_stage1, mr_stage2. by rewrite <- ?app_assoc.
      * apply mr_first_flow_only.
      * apply mr_second_shape.
      * apply K1_keys_all.
      * unfold mr_tail. by destruct (mr_ok2' data).
    + split; [|done]. exists (mr_first build_qcp_br data).
      split; [by rewrite app_nil_r|apply mr_first_flow_only].
Qed.

End StagedClaims.

(** * The staged solves on the toy model *)

(** C1: with a solver that reports an infeasible first stage, neither
    function reactivates anything or solves a second time. *)
Lemma staged_sequence_cut_short :
  let out_c := cost_optimal toy_build ipopt_infeasible tt false empty_world in
  let out_r := max_recovery_with_infrastructure toy_build ipopt_infeasible
                 toy_rev tt false empty_world in
  (out_c.1 = Raise RuntimeError
   ∧ length (solves (log out_c.2)) = 1%nat
   ∧ obj_fix_calls (log out_c.2)
     = [(["v_C"], flow_constraints, concentration_constraints)])
  ∧ (out_r.1 = Raise RuntimeError
     ∧ length (solves (log out_r.2)) = 1%nat
     ∧ obj_fix_calls (log out_r.2)
       = [(["v_C"], flow_constraints, concentration_constraints)]).
Proof. vm_compute. repeat split. Qed.

Lemma staged_sequence_witness :
  let l := fresh (dom (heap empty_world)) in
  let events := λ (out : Res loc * @World unit),
    suffix_from (log empty_world) (log out.2) in
  let out_c := cost_optimal toy_build ipopt_infeasible tt false empty_world in
  let out_r := max_recovery_with_infrastructure toy_build ipopt_infeasible
                 toy_rev tt false empty_world in
  (cost_optimal_sequence ipopt_optimal l false
     (events (cost_optimal toy_build ipopt_optimal tt false empty_world))
   ∧ max_recovery_sequence ipopt_optimal l false
       (events (max_recovery_with_infrastructure toy_build ipopt_optimal
                  toy_rev tt false empty_world)))
  ∧ (cost_optimal_first_stage ipopt_infeasible l false (events out_c)
     ∧ out_c.1 = Raise RuntimeError)
  ∧ (max_recovery_first_stage ipopt_infeasible l false (events out_r)
     ∧ out_r.1 = Raise RuntimeError).
Proof.
  cbv beta zeta.
  destruct (staged_sequence_unless_first_solve_fails
              toy_build ipopt_optimal toy_rev tt false empty_world)
    as [(mc & rc & Hsc & Hc & _) (mr & rr & Hsr & Hr & _)].
  destruct (staged_sequence_unless_first_solve_fails
              toy_build ipopt_infeasible toy_rev tt false empty_world)
    as [(mc' & rc' & Hsc' & _ & Hc') (mr' & rr' & Hsr' & _ & Hr')].
  rewrite co_solves in Hsc, Hsc'. rewrite mr_solves in Hsr, Hsr'.
  injection Hsc as _ <-. injection Hsc' as _ <-.
  injection Hsr as _ <-. injection Hsr' as _ <-.
  split; [split|split].
  - apply Hc. reflexivity.
  - apply Hr. reflexivity.
  - apply Hc'. reflexivity.
  - apply Hr'. reflexivity.
Defined.

Lemma cost_optimal_reverses_toggling_witness :
  let out := cost_optimal toy_build ipopt_optimal tt false empty_world in
  let m := co_final toy_build ipopt_optimal tt in
  out.1 = Ok 0%nat
  ∧ heap out.2 !! 0%nat = Some m
  ∧ toggling_reversed m
  ∧ fully_active (cons m MSconc) ∧ fully_active (cons m minconccon)
  ∧ fully_active (cons m Dflow)
  ∧ fixed m !! "v_C" = Some false.
Proof.
  cbv zeta. split; [by vm_compute|].
  destruct (cost_optimal_reverses_toggling
              toy_build ipopt_optimal tt false empty_world) as (_ & _ & H & _).
  destruct (H 0%nat) as (m & Hm & Hrev); [by vm_compute|].
  rewrite co_heap in Hm. change (fresh (dom (heap empty_world))) with 0%nat in Hm.
  rewrite lookup_insert_eq in Hm. injection Hm as <-.
  change (co_ok1 toy_build ipopt_optimal tt) with true in Hrev.
  cbv iota in Hrev.
  split; [by rewrite co_heap|]. split; [exact Hrev|].
  destruct Hrev as (Hconc & Hflow & _).
  split; [apply Hconc, list_elem_of_In; cbn; tauto|].
  split; [apply Hconc, list_elem_of_In; cbn; tauto|].
  split; [apply Hflow, list_elem_of_In; cbn; tauto|].
  by vm_compute.
Defined.

Lemma max_recovery_second_stage_witness :
  let out := max_recovery_with_infrastructure toy_build ipopt_optimal
               toy_rev tt false empty_world in
  let m := mr_final toy_build ipopt_optimal tt in
  out.1 = Ok 0%nat
  ∧ heap out.2 !! 0%nat = Some m
  ∧ recovery_shape m
  ∧ members (cons m Dflow) !! ("K1_TW", "T1") = Some false
  ∧ members (cons m Dflow) !! ("K1_CW", "T1") = Some false
  ∧ members (cons m Dflow) !! ("N1", "T1") = Some true
  ∧ members (cons m TINflow) !! ("N1", "T1") = Some false
  ∧ members (cons m MSconc) !! ("K1_TW", "T1") = Some true.
Proof.
  cbv zeta. split; [by vm_compute|].
  destruct (max_recovery_second_stage
              toy_build ipopt_optimal toy_rev tt false empty_world)
    as (_ & H & _).
  destruct (H 0%nat) as (m & Hm & Hshape); [by vm_compute|].
  rewrite mr_heap in Hm. change (fresh (dom (heap empty_world))) with 0%nat in Hm.
  rewrite lookup_insert_eq in Hm. injection Hm as <-.
  change (mr_ok1 toy_build ipopt_optimal tt) with true in Hshape.
  cbv iota in Hshape.
  split; [by rewrite mr_heap|]. split; [exact Hshape|].
  repeat split; by vm_compute.
Defined.

(** * Facts about the recovery bound *)

Open Scope Q_scope.

Lemma Qltb_lt x y : Qltb x y = true ↔ x < y.
Proof.
  unfold Qltb. rewrite negb_true_iff. split.
  - intros H. apply Qnot_le_lt. intros Hle.
    apply Qle_bool_iff in Hle. congruence.
  - intros H. destruct (Qle_bool y x) eqn:E; [|done].
    apply Qle_bool_iff in E. exfalso. exact (Qlt_not_le _ _ H E).
Qed.




(** ** The sort *)





(** ** The accumulation loop *)





Lemma stays_above_app d cf cli l1 l2 :
  stays_above d cf cli (l1 ++ l2)
  ↔ stays_above d cf cli l1
    ∧ stays_above d (flows_from cf l1) (lithium_from cli l1) l2.
Proof.
  revert cf cli. induction l1 as [|[f c] l1 IH]; intros cf cli; cbn.
  - tauto.
  - rewrite IH. tauto.
Qed.


(** ** The two bounds *)

Lemma greedy_run {St} model tu desired (st : St) :
  max_theoretical_recovery_flow model tu desired st
  = if Qltb (999 # 1000) (p_alpha model tu "Li") then
      match accumulate (desired * (1 - p_alphaW model tu))
              (sort_desc (produced_flows_conc model)) 0 0 st with
      | (Ok v, st') => (Ok (v * (1 - p_alphaW model tu)), st')
      | (Raise e, st') => (Raise e, st')
      end
    else (Raise AssertionError, st).
Proof.
  unfold max_theoretical_recovery_flow. rewrite bind_run. unfold assert.
  destruct (Qltb _ _); [|done]. unfold ret at 1. cbv beta iota zeta.
  rewrite bind_run. by destruct (accumulate _ _ _ _ _) as [[v|e] st'].
Qed.



Lemma flows_from_nonneg cf l :
  0 <= cf → Forall (λ p, 0 < fst p) l → 0 <= flows_from cf l.
Proof.
  revert cf. induction l as [|[f c] l IH]; intros cf Hcf Hl; [done|].
  apply Forall_cons_iff in Hl as [Hf Hl]. cbn in *. apply IH; [lra|done].
Qed.





Section RecoveryFacts.

Variable ipopt_lp : ConcreteModel → SolverResults * LPValues.

Lemma opt_run model tu desired tee lg :
  let alphaW := p_alphaW model tu in
  let mm := build_mm model (desired * (1 - alphaW)) in
  max_theoretical_recovery_flow_opt ipopt_lp model tu desired tee lg
  = if Qltb (999 # 1000) (p_alpha model tu "Li") then
      (if check_optimal_termination (ipopt_lp mm).1
       then Ok (cumulative_F (ipopt_lp mm).2 * (1 - alphaW))
       else Raise RuntimeError,
       (lg ++ [EvSolveLP mm tee (ipopt_lp mm).1])%list)
    else (Raise AssertionError, lg).
Proof.
  cbv zeta. unfold max_theoretical_recovery_flow_opt. rewrite bind_run.
  unfold assert. destruct (Qltb _ _); [|done]. unfold ret at 1.
  cbv beta iota zeta. rewrite bind_run. unfold solve_lp.
  destruct (ipopt_lp _) as [r v]. cbn [fst snd]. rewrite bind_run.
  unfold assert_optimal_termination. by destruct (check_optimal_termination r).
Qed.

Lemma opt_hard_stop model tu desired tee lg :
  let out := max_theoretical_recovery_flow_opt ipopt_lp model tu desired tee lg in
  hard_stop failed_solve_lp (suffix_from lg out.2) out.1.
Proof.
  cbv zeta. rewrite opt_run. cbv zeta. destruct (Qltb _ _); cbn [fst snd].
  - rewrite suffix_from_app. eapply (hard_stop_at _ _ []); [done|done| |].
    + cbn. by intros ->.
    + cbn. by destruct (check_optimal_termination _).
  - unfold suffix_from. rewrite drop_all. by apply hard_stop_nil.
Qed.

(** C8: when [p_alpha[treatment_unit, "Li"]] does not exceed 0.999, both
    bounds raise [AssertionError] whatever the flow data are, leaving the
    state as it was (no solver call is logged). *)
Theorem efficiency_asserted_first alpha tu :
  ¬ 999 # 1000 < alpha tu "Li" →
  ∀ alphaW FGen CGen desired tee,
    let model := {| p_alpha := alpha; p_alphaW := alphaW;
                    p_FGen := FGen; p_CGen := CGen |} in
    (∀ St (st : St),
        max_theoretical_recovery_flow model tu desired st
        = (Raise AssertionError, st))
    ∧ (∀ lg,
        max_theoretical_recovery_flow_opt ipopt_lp model tu desired tee lg
        = (Raise AssertionError, lg)).
Proof.
  intros Halpha alphaW FGen CGen desired tee. cbv zeta.
  assert (E : Qltb (999 # 1000) (alpha tu "Li") = false).
  { destruct (Qltb _ _) eqn:E; [|done]. by apply Qltb_lt in E. }
  split.
  - intros St st. rewrite greedy_run. cbn [p_alpha]. by rewrite E.
  - intros lg. rewrite opt_run. cbn [p_alpha]. by rewrite E.
Qed.

End RecoveryFacts.

(** C2: in [cost_optimal], [max_recovery_with_infrastructure] and
    [max_theoretical_recovery_flow_opt], a solve whose report is not an
    optimal termination is the last event of the run and the function raises
    [RuntimeError]; when no solve failed, no [RuntimeError] is raised. *)
Theorem failed_solve_is_a_hard_stop {Data Sol}
    (build_qcp_br : Data → @Model Sol)
    (ipopt : Options → @Model Sol → SolverResults * Sol)
    (treat_rev : @Model Sol → Q)
    (ipopt_lp : ConcreteModel → SolverResults * LPValues)
    (data : Data) (tee : bool) (w : @World Sol)
    (model : Params) (tu : string) (desired : Q) (lg : list LPEvent) :
  let out_c := cost_optimal build_qcp_br ipopt data tee w in
  let out_r := max_recovery_with_infrastructure build_qcp_br ipopt treat_rev
                 data tee w in
  let out_o := max_theoretical_recovery_flow_opt ipopt_lp model tu desired
                 tee lg in
  hard_stop failed_solve (suffix_from (log w) (log out_c.2)) out_c.1
  ∧ hard_stop failed_solve (suffix_from (log w) (log out_r.2)) out_r.1
  ∧ hard_stop failed_solve_lp (suffix_from lg out_o.2) out_o.1.
Proof.
  cbv zeta. split; [apply co_hard_stop|]. split; [apply mr_hard_stop|].
  apply opt_hard_stop.
Qed.

Lemma efficiency_asserted_first_witness :
  max_theoretical_recovery_flow low_efficiency_model "R01" 120 tt
  = (Raise AssertionError, tt)
  ∧ max_theoretical_recovery_flow_opt lp_optimal_answer low_efficiency_model
      "R01" 120 false []
    = (Raise AssertionError, []).
Proof.
  destruct (efficiency_asserted_first lp_optimal_answer (λ _ _, 1 # 2) "R01")
    with (alphaW := λ _ : string, 0) (FGen := [(("A", "T1"), 1)])
         (CGen := λ _ _ _ : string, 200) (desired := 120) (tee := false)
    as [H1 H2].
  - intros H. vm_compute in H. discriminate.
  - split; [apply H1|apply H2].
Defined.

(** ** The unguarded divisions *)


(** C9: there are models satisfying the efficiency assertion on which
    [max_theoretical_recovery_flow] raises [ZeroDivisionError]: one whose
    first generated flow is zero, and one with positive flows whose highest
    concentration equals the adjusted target. *)
Theorem unguarded_divisions :
  (999 # 1000 < p_alpha zero_flow_model "R01" "Li"
   ∧ (∃ t rest, p_FGen zero_flow_model = (t, 0) :: rest)
   ∧ max_theoretical_recovery_flow zero_flow_model "R01" 120 tt
     = (Raise ZeroDivisionError, tt))
  ∧ (999 # 1000 < p_alpha on_target_model "R01" "Li"
     ∧ Forall (λ tv, 0 < snd tv) (p_FGen on_target_model)
     ∧ (∃ p rest, sort_desc (produced_flows_conc on_target_model) = p :: rest
                  ∧ snd p == 120 * (1 - p_alphaW on_target_model "R01"))
     ∧ max_theoretical_recovery_flow on_target_model "R01" 120 tt
       = (Raise ZeroDivisionError, tt)).
Proof.
  split; [split; [reflexivity|split]|split; [reflexivity|split; [|split]]].
  - by eexists _, _.
  - rewrite greedy_run. reflexivity.
  - repeat constructor.
  - eexists _, _. split; [reflexivity|]. reflexivity.
  - rewrite greedy_run. reflexivity.
Qed.

(** * The greedy bound is the optimum of the selection problem *)

Lemma Qsum_nil : Qsum [] = 0.
Proof. reflexivity. Qed.

Lemma Qsum_cons x l : Qsum (x :: l) = x + Qsum l.
Proof. reflexivity. Qed.

Lemma taken_cons p x zs : taken ((p, x) :: zs) = x + taken zs.
Proof. reflexivity. Qed.

Lemma taken_li_cons f c x zs :
  taken_li ((f, c, x) :: zs) = x * c + taken_li zs.
Proof. reflexivity. Qed.









(** ** The dual bound *)



Lemma selection_capped zs :
  Forall (λ z, 0 <= snd z ∧ snd z <= fst (fst z)) zs →
  taken zs <= Qsum (map fst (map fst zs)).
Proof.
  induction zs as [|[[f c'] x] zs IH]; intros Hcap.
  - unfold taken. cbn [map]. rewrite Qsum_nil. lra.
  - apply Forall_cons_iff in Hcap as [[Hx0 Hxf] Hcap]. cbn [fst snd] in *.
    specialize (IH Hcap).
    rewrite taken_cons, !map_cons, !Qsum_cons. cbn [fst snd]. lra.
Qed.



(** ** The greedy selection *)









(** ** Where the loop stops *)




(** ** Back from the sorted list to the model's own order *)






(** * The linear program and the greedy bound *)

Lemma produced_flows_conc_map model :
  produced_flows_conc model = map (flow_conc model) (p_FGen model).
Proof. reflexivity. Qed.

Lemma selection_of_pairs model g :
  map fst (selection_of model g) = produced_flows_conc model.
Proof. unfold selection_of. by rewrite map_map. Qed.

Lemma selection_of_taken model g :
  taken (selection_of model g) = lp_sum g (map fst (p_FGen model)).
Proof. unfold taken, selection_of, lp_sum. by rewrite !map_map. Qed.

Lemma selection_of_li model g :
  taken_li (selection_of model g)
  = lp_sum (λ t, g t * p_CGen model (fst t) "Li" (snd t))
      (map fst (p_FGen model)).
Proof. unfold taken_li, selection_of, lp_sum. by rewrite !map_map. Qed.

Lemma selection_of_capped model g :
  Forall (λ z, 0 <= snd z ∧ snd z <= fst (fst z)) (selection_of model g)
  ↔ Forall (λ b, fst (snd b) <= g (fst b) ∧ g (fst b) <= snd (snd b))
      (map (λ kv : Key * Q, (fst kv, (0, snd kv * 7))) (p_FGen model)).
Proof. unfold selection_of. by rewrite !Forall_map. Qed.

(** Feasible values and admissible selections are the same thing. *)
Lemma lp_feasible_selection model d v :
  lp_feasible (build_mm model d) v ↔
  admissible d (produced_flows_conc model) (selection_of model (F v))
  ∧ 10 <= cumulative_F v
  ∧ cumulative_F v == taken (selection_of model (F v)).
Proof.
  unfold lp_feasible, admissible. cbn [build_mm mm_bounds mm_cumulative_F_lb
    mm_S mm_li mm_desired_li_conc].
  rewrite <- selection_of_capped, <- selection_of_taken, <- selection_of_li.
  split.
  - intros (Hb & Hlb & Hc & Hq). rewrite <- Hc.
    split; [|done]. split; [apply selection_of_pairs|done].
  - intros ((_ & Hb & Hq) & Hlb & Hc). rewrite Hc. rewrite Hc in Hlb. done.
Qed.

(** With distinct keys every selection is described by some values. *)
Lemma selection_as_values model fgen zs :
  NoDup (map fst fgen) →
  map fst zs = map (flow_conc model) fgen →
  ∃ g : Key → Q, map (λ tv, (flow_conc model tv, g (fst tv))) fgen = zs.
Proof.
  revert zs. induction fgen as [|tv fgen IH]; intros zs Hnd Hmap.
  - destruct zs; [|done]. by exists (λ _, 0).
  - destruct zs as [|[p x] zs]; [done|]. cbn [map fst] in Hmap.
    injection Hmap as -> Hmap. cbn [map] in Hnd.
    pose proof (NoDup_cons_1_1 _ _ Hnd) as Hnotin.
    apply NoDup_cons_1_2 in Hnd.
    destruct (IH zs Hnd Hmap) as (g & Hg).
    exists (λ t, if decide (t = fst tv) then x else g t).
    cbn [map]. rewrite decide_True by done. f_equal.
    rewrite <- Hg. apply map_ext_in. intros tv' Hin.
    rewrite decide_False; [done|]. intros Heq. apply Hnotin.
    rewrite <- Heq. apply list_elem_of_In. by apply in_map.
Qed.




Lemma example_answer_optimal :
  lp_optimal (build_mm example_model (120 * (1 - 0)))
    (example_answer (build_mm example_model (120 * (1 - 0)))).2.
Proof.
  split.
  - unfold lp_feasible, lp_sum.
    cbn [build_mm mm_bounds mm_cumulative_F_lb mm_S mm_li mm_desired_li_conc
         example_model p_FGen p_CGen map].
    split; [|by vm_compute].
    repeat (apply List.Forall_cons; [by vm_compute|]). apply List.Forall_nil.
  - intros v' (Hb & Hlb & Hc & Hq). unfold lp_sum in *.
    cbn [build_mm mm_bounds mm_cumulative_F_lb mm_S mm_li mm_desired_li_conc
         example_model p_FGen map] in *.
    rewrite !Qsum_cons, !Qsum_nil in Hc, Hq.
    apply Forall_cons_iff in Hb as [[HB0 HB1] Hb].
    apply Forall_cons_iff in Hb as [[HC0 HC1] Hb].
    apply Forall_cons_iff in Hb as [[HA0 HA1] _].
    cbn [fst snd] in *.
    change (p_CGen example_model "B" "Li" "T1") with 100 in Hq.
    change (p_CGen example_model "C" "Li" "T1") with 50 in Hq.
    change (p_CGen example_model "A" "Li" "T1") with 200 in Hq.
    change (cumulative_F (example_answer _).2) with 20.
    lra.
Qed.


(** ** One source that is not above the target *)

Lemma max_total_single d f c :
  0 < f →
  (c < d → max_total d [(f, c)] 0) ∧ (d <= c → max_total d [(f, c)] f).
Proof.
  intros Hf.
  assert (Hsel : ∀ zs, admissible d [(f, c)] zs →
                       ∃ x, zs = [((f, c), x)] ∧ 0 <= x ∧ x <= f
                            ∧ d * x <= x * c).
  { intros zs (Hmap & Hcap & Hd).
    destruct zs as [|[p x] [|z zs]]; [done| |done].
    cbn [map fst] in Hmap. injection Hmap as ->.
    apply Forall_inv in Hcap. cbn [fst snd] in Hcap.
    rewrite taken_cons, taken_li_cons in Hd.
    unfold taken, taken_li in Hd. cbn [map] in Hd. rewrite Qsum_nil in Hd.
    exists x. split; [done|]. lra. }
  assert (Hadm : ∀ x, 0 <= x → x <= f → d * x <= x * c →
                      admissible d [(f, c)] [((f, c), x)]).
  { intros x H0 H1 H2. split; [done|]. split.
    - constructor; [cbn [fst snd]; lra|constructor].
    - rewrite taken_cons, taken_li_cons. unfold taken, taken_li. cbn [map].
      rewrite Qsum_nil. lra. }
  assert (Htaken : ∀ x, taken [((f, c), x)] == x).
  { intros x. rewrite taken_cons. unfold taken. cbn [map].
    rewrite Qsum_nil. lra. }
  split; intros Hc; split.
  - exists [((f, c), 0)]. split; [apply Hadm; lra|apply Htaken].
  - intros zs Hzs. destruct (Hsel zs Hzs) as (x & -> & H0 & H1 & H2).
    rewrite Htaken. nra.
  - exists [((f, c), f)]. split; [apply Hadm; [lra|lra|nra]|apply Htaken].
  - intros zs Hzs. destruct (Hsel zs Hzs) as (x & -> & H0 & H1 & H2).
    by rewrite Htaken.
Qed.

(** C3: with positive flows none of which is above the target the bound is
    not returned: the largest admissible total is 0 (below the target) or the
    whole flow (at the target), and the function raises [ZeroDivisionError] *)
Theorem recovery_bound_not_returned :
  (999 # 1000 < p_alpha below_target_model "R01" "Li"
   ∧ Forall (λ tv, 0 < snd tv) (p_FGen below_target_model)
   ∧ max_total (100 * (1 - p_alphaW below_target_model "R01"))
       (produced_flows_conc below_target_model) 0
   ∧ max_theoretical_recovery_flow below_target_model "R01" 100 tt
     = (Raise ZeroDivisionError, tt))
  ∧ (999 # 1000 < p_alpha at_target_model "R01" "Li"
     ∧ Forall (λ tv, 0 < snd tv) (p_FGen at_target_model)
     ∧ max_total (60 * (1 - p_alphaW at_target_model "R01"))
         (produced_flows_conc at_target_model) (1 * 7)
     ∧ max_theoretical_recovery_flow at_target_model "R01" 60 tt
       = (Raise ZeroDivisionError, tt)).
Proof.
  split.
  - split; [reflexivity|]. split; [repeat constructor|]. split.
    + apply (max_total_single _ (1 * 7) 50); reflexivity.
    + rewrite greedy_run. reflexivity.
  - split; [reflexivity|]. split; [repeat constructor|]. split.
    + apply (max_total_single _ (1 * 7) 60); [reflexivity|].
      cbn [p_alphaW at_target_model]. lra.
    + rewrite greedy_run. reflexivity.
Qed.

(** * Hard stop and single object on the toy model *)

Lemma failed_solve_is_a_hard_stop_witness :
  (cost_optimal toy_build ipopt_infeasible tt false empty_world).1
  = Raise RuntimeError
  ∧ (max_theoretical_recovery_flow_opt example_answer example_model "R01" 120
       false []).1 ≠ Raise RuntimeError.
Proof.
  destruct (failed_solve_is_a_hard_stop toy_build ipopt_infeasible toy_rev
              example_answer tt false empty_world example_model "R01" 120 [])
    as ((Hc & _) & _ & (_ & Ho)).
  split.
  - rewrite co_events in Hc.
    refine (proj2 (Hc [_; _; _] _ [] eq_refl _)). reflexivity.
  - apply Ho. intros [mm t r] He Hf. rewrite opt_run in He.
    change (Qltb (999 # 1000) (p_alpha example_model "R01" "Li")) with true
      in He.
    cbv zeta iota in He. cbn [snd] in He. rewrite app_nil_l in He.
    unfold suffix_from in He. cbn [length drop] in He.
    apply list_elem_of_singleton in He. injection He as _ _ ->.
    discriminate Hf.
Defined.

Lemma one_model_object_witness :
  let out := cost_optimal toy_build ipopt_optimal tt false empty_world in
  builds (suffix_from (log empty_world) (log out.2)) = [0%nat]
  ∧ (∀ l', out.1 = Ok l' → l' = 0%nat).
Proof.
  cbv zeta.
  destruct (one_model_object_through_every_stage
              toy_build ipopt_optimal toy_rev tt false empty_world)
    as ((Hb & _ & Hret & _) & _).
  split; [rewrite Hb; reflexivity|exact Hret].
Defined.

(** * Further properties of the greedy bound *)

Lemma weekly_supply_pairs model :
  weekly_supply model = Qsum (map fst (produced_flows_conc model)).
Proof. unfold weekly_supply, produced_flows_conc. by rewrite map_map. Qed.









(** ** The bound as an optimum *)








(** ** Every source above the target *)




(** ** Raising the target *)



(** ** The order of the entries of [p_FGen] *)





(** ** Between the rich supply and the whole supply *)



(** * Further properties of the linear-programming bound *)

Section LinearProgram.

Variable ipopt_lp : ConcreteModel → SolverResults * LPValues.

(** X8: when the solver answers truthfully, a value returned by
    [max_theoretical_recovery_flow_opt] is [1 - alphaW] times the total of a
    selection within the flows whose average concentration is at least the
    adjusted target; that total is at least 10 and at most the weekly
    supply. *)
Theorem opt_result_is_an_admissible_flow model tu desired tee lg r :
  let alphaW := p_alphaW model tu in
  let target := desired * (1 - alphaW) in
  let mm := build_mm model target in
  truthful mm (ipopt_lp mm) →
  fst (max_theoretical_recovery_flow_opt ipopt_lp model tu desired tee lg)
  = Ok r →
  ∃ zs, admissible target (produced_flows_conc model) zs
        ∧ 10 <= taken zs
        ∧ taken zs <= weekly_supply model
        ∧ r == taken zs * (1 - alphaW).
Proof.
  cbv zeta. intros Htrue. rewrite opt_run. cbv zeta.
  destruct (Qltb _ _); [|done]. cbn [fst].
  destruct (check_optimal_termination _) eqn:Hcheck; [|done].
  intros [= <-]. specialize (Htrue Hcheck).
  apply lp_feasible_selection in Htrue as (Hadm & Hlb & Hc).
  eexists. split; [exact Hadm|]. rewrite <- Hc. split; [done|].
  split; [|reflexivity].
  destruct Hadm as (Hmap & Hcap & _). apply selection_capped in Hcap.
  rewrite Hmap, <- weekly_supply_pairs, <- Hc in Hcap. done.
Qed.

(** X9: when the weekly supply is below 10 bbl and the solver answers
    truthfully, [max_theoretical_recovery_flow_opt] calls the solver once and
    raises [RuntimeError]. *)
Theorem opt_fails_when_supply_is_below_ten model tu desired tee lg :
  let alphaW := p_alphaW model tu in
  let mm := build_mm model (desired * (1 - alphaW)) in
  999 # 1000 < p_alpha model tu "Li" →
  weekly_supply model < 10 →
  truthful mm (ipopt_lp mm) →
  max_theoretical_recovery_flow_opt ipopt_lp model tu desired tee lg
  = (Raise RuntimeError, (lg ++ [EvSolveLP mm tee (fst (ipopt_lp mm))])%list).
Proof.
  cbv zeta. intros Halpha Hsupply Htrue. apply Qltb_lt in Halpha.
  rewrite opt_run. cbv zeta. rewrite Halpha.
  destruct (check_optimal_termination _) eqn:Hcheck; [|done].
  exfalso. specialize (Htrue Hcheck).
  apply lp_feasible_selection in Htrue as ((Hmap & Hcap & _) & Hlb & Hc).
  apply selection_capped in Hcap.
  rewrite Hmap, <- weekly_supply_pairs, <- Hc in Hcap. lra.
Qed.

(** X7: with distinct keys in [p_FGen], a report of optimal termination and
    values that are an optimum of [mm], [max_theoretical_recovery_flow_opt]
    makes one solver call and returns [v * (1 - alphaW)], where [v] is at
    least 10 and is the largest total among the selections of average
    concentration at least the adjusted target that take 10 or more. *)
Theorem opt_returns_the_constrained_optimum model tu desired tee lg :
  let alphaW := p_alphaW model tu in
  let target := desired * (1 - alphaW) in
  let mm := build_mm model target in
  let pairs := produced_flows_conc model in
  999 # 1000 < p_alpha model tu "Li" →
  NoDup (map fst (p_FGen model)) →
  check_optimal_termination (fst (ipopt_lp mm)) = true →
  lp_optimal mm (snd (ipopt_lp mm)) →
  ∃ v, max_theoretical_recovery_flow_opt ipopt_lp model tu desired tee lg
       = (Ok (v * (1 - alphaW)),
          (lg ++ [EvSolveLP mm tee (fst (ipopt_lp mm))])%list)
       ∧ 10 <= v
       ∧ (∃ zs, admissible target pairs zs ∧ taken zs == v)
       ∧ (∀ zs, admissible target pairs zs → 10 <= taken zs → taken zs <= v).
Proof.
  cbv zeta. intros Halpha Hnd Hcheck [Hfeas Hopt]. apply Qltb_lt in Halpha.
  eexists. split; [|split; [|split]].
  - rewrite opt_run. cbv zeta. rewrite Halpha, Hcheck. reflexivity.
  - by apply lp_feasible_selection in Hfeas as (_ & Hlb & _).
  - apply lp_feasible_selection in Hfeas as (Hadm & _ & Hc).
    eexists. split; [exact Hadm|]. by rewrite Hc.
  - intros zs Hzs Hten. assert (Hadm := Hzs).
    destruct Hzs as (Hmap & Hcap & Hq).
    rewrite produced_flows_conc_map in Hmap.
    destruct (selection_as_values model (p_FGen model) zs Hnd Hmap)
      as (g & Hg).
    fold (selection_of model g) in Hg.
    apply (Hopt {| F := g; cumulative_F := taken zs |}).
    apply lp_feasible_selection. cbn [F cumulative_F]. rewrite Hg.
    split; [done|]. split; [done|reflexivity].
Qed.


End LinearProgram.

Lemma example_answer_truthful :
  truthful (build_mm example_model (120 * (1 - 0)))
    (example_answer (build_mm example_model (120 * (1 - 0)))).
Proof. intros _. apply example_answer_optimal. Qed.

Lemma example_keys_distinct : NoDup (map fst (p_FGen example_model)).
Proof.
  cbn [example_model p_FGen map fst].
  repeat (apply NoDup_cons_2; [rewrite ?elem_of_cons, elem_of_nil;
                               intuition congruence|]).
  apply NoDup_nil_2.
Qed.

Lemma opt_result_is_an_admissible_flow_witness :
  ∃ zs, admissible (120 * (1 - 0)) (produced_flows_conc example_model) zs
        ∧ 10 <= taken zs
        ∧ taken zs <= weekly_supply example_model
        ∧ 20 * (1 - 0) == taken zs * (1 - 0).
Proof.
  apply (opt_result_is_an_admissible_flow example_answer example_model "R01"
           120 false []).
  - apply example_answer_truthful.
  - reflexivity.
Defined.

Lemma opt_fails_when_supply_is_below_ten_witness :
  max_theoretical_recovery_flow_opt lp_infeasible_answer small_flow_model
    "R01" 50 false []
  = (Raise RuntimeError,
     [EvSolveLP (build_mm small_flow_model (50 * (1 - 0))) false
        (fst (lp_infeasible_answer
                (build_mm small_flow_model (50 * (1 - 0)))))]).
Proof.
  apply (opt_fails_when_supply_is_below_ten lp_infeasible_answer
           small_flow_model "R01" 50 false []).
  - reflexivity.
  - reflexivity.
  - intros H. discriminate H.
Defined.

Lemma opt_returns_the_constrained_optimum_witness :
  let mm := build_mm example_model (120 * (1 - 0)) in
  ∃ v, max_theoretical_recovery_flow_opt example_answer example_model "R01"
         120 false []
       = (Ok (v * (1 - 0)), [EvSolveLP mm false (fst (example_answer mm))])
       ∧ 10 <= v
       ∧ (∃ zs, admissible (120 * (1 - 0)) (produced_flows_conc example_model)
                  zs ∧ taken zs == v)
       ∧ (∀ zs, admissible (120 * (1 - 0)) (produced_flows_conc example_model)
                  zs → 10 <= taken zs → taken zs <= v).
Proof.
  apply (opt_returns_the_constrained_optimum example_answer example_model
           "R01" 120 false []).
  - reflexivity.
  - apply example_keys_distinct.
  - reflexivity.
  - apply example_answer_optimal.
Defined.


(** ** When the linear program has a solution at all *)



(** * Further properties of the staged solves *)

Close Scope Q_scope.

Section ModelFrame.

Context {Sol : Type}.

Implicit Types (m : @Model Sol) (c : ConName).

(** Toggling constraints and fixing variables leave the objectives and the
    values of the variables alone. *)
Lemma toggle_objs (f : Constraint → Constraint) cs m :
  objs (toggle f cs m) = objs m.
Proof.
  unfold toggle. revert m. induction cs as [|c cs IH]; intros m; [done|].
  cbn [foldl]. by rewrite IH.
Qed.

Lemma toggle_values (f : Constraint → Constraint) cs m :
  values (toggle f cs m) = values m.
Proof.
  unfold toggle. revert m. induction cs as [|c cs IH]; intros m; [done|].
  cbn [foldl]. by rewrite IH.
Qed.

Lemma set_con_objs c (f : Constraint → Constraint) m :
  objs (set_con c f m) = objs m.
Proof. reflexivity. Qed.

Lemma set_con_values c (f : Constraint → Constraint) m :
  values (set_con c f m) = values m.
Proof. reflexivity. Qed.

Lemma load_solution_objs (s : Sol) m : objs (load_solution s m) = objs m.
Proof. reflexivity. Qed.

Lemma load_solution_values (s : Sol) m : values (load_solution s m) = s.
Proof. reflexivity. Qed.

Lemma set_obj_objs o b m : objs (set_obj o b m) = <[o := b]> (objs m).
Proof. reflexivity. Qed.

Lemma obj_fix_model_objs vars act deact m :
  objs (obj_fix_model vars act deact m) = objs m.
Proof. unfold obj_fix_model. by rewrite !toggle_objs. Qed.

Lemma obj_fix_model_values vars act deact m :
  values (obj_fix_model vars act deact m) = values m.
Proof. unfold obj_fix_model. by rewrite !toggle_values. Qed.

Lemma Dflow_K1_off_objs m : objs (Dflow_K1_off m) = objs m.
Proof.
  unfold Dflow_K1_off. generalize (K1_keys m). intros ks. revert m.
  induction ks as [|k ks IH]; intros m; [done|]. cbn [foldl]. by rewrite IH.
Qed.

Lemma Dflow_K1_off_values m : values (Dflow_K1_off m) = values m.
Proof.
  unfold Dflow_K1_off. generalize (K1_keys m). intros ks. revert m.
  induction ks as [|k ks IH]; intros m; [done|]. cbn [foldl]. by rewrite IH.
Qed.

End ModelFrame.

Section StagedFurther.

Context {Data Sol : Type}.
Variable build_qcp_br : Data → @Model Sol.
Variable ipopt : Options → @Model Sol → SolverResults * Sol.
Variable treat_rev : @Model Sol → Q.

Implicit Types (w : @World Sol) (m : @Model Sol) (l : loc).

Local Abbreviation cost_optimal' := (cost_optimal build_qcp_br ipopt).
Local Abbreviation max_recovery' :=
  (max_recovery_with_infrastructure build_qcp_br ipopt treat_rev).

Lemma printed_values_deactivations l c ks :
  printed_values (map (EvDeactivateData (Sol := Sol) l c) ks) = [].
Proof. induction ks as [|k ks IH]; [done|]. cbn. exact IH. Qed.

Lemma mr_stages_print_no_value l tee data :
  printed_values (mr_stage1 build_qcp_br ipopt l tee data) = []
  ∧ printed_values (mr_stage2 build_qcp_br ipopt l tee data) = [].
Proof.
  split; [done|]. unfold mr_stage2, printed_values. rewrite !omap_app.
  fold (printed_values (map (EvDeactivateData (Sol := Sol) l Dflow)
                          (K1_keys (mr_reactivated build_qcp_br ipopt data)))).
  by rewrite printed_values_deactivations.
Qed.

(** X12: [max_recovery_with_infrastructure] prints the revenue exactly when it
    returns: the print is then the last event, after both solves, and its
    value is [treat_rev] of the model that is returned; a run that raises
    prints no value, and [cost_optimal] never prints one. *)
Theorem revenue_is_reported_only_on_success data tee w :
  let out := max_recovery' data tee w in
  let tr := suffix_from (log w) (log out.2) in
  (∀ l, out.1 = Ok l →
     ∃ m pre,
       heap out.2 !! l = Some m
       ∧ tr = pre ++ [EvPrintValue
                        "Max lithium revenue with existing infrastructure:"
                        (treat_rev m)]
       ∧ printed_values pre = []
       ∧ length (solves pre) = 2%nat)
  ∧ (∀ e, out.1 = Raise e → printed_values tr = [])
  ∧ printed_values
      (suffix_from (log w) (log (cost_optimal' data tee w).2)) = [].
Proof.
  cbv zeta. rewrite mr_events, mr_result, mr_heap, co_events.
  set (l0 := fresh (dom (heap w))).
  destruct (mr_stages_print_no_value l0 tee data) as [Hp1 Hp2].
  split; [|split].
  - intros l. unfold mr_tail.
    destruct (mr_ok1 _ _ data) eqn:H1; [|intros [=]].
    destruct (mr_ok2 _ _ data) eqn:H2; intros [= <-].
    exists (mr_final build_qcp_br ipopt data),
           (mr_stage1 build_qcp_br ipopt l0 tee data
            ++ mr_stage2 build_qcp_br ipopt l0 tee data).
    split; [apply lookup_insert_eq|]. split; [by rewrite <- app_assoc|].
    split.
    + unfold printed_values in *. by rewrite omap_app, Hp1, Hp2.
    + unfold solves, mr_stage2. rewrite !omap_app.
      fold (solves (map (EvDeactivateData (Sol := Sol) l0 Dflow)
                      (K1_keys (mr_reactivated build_qcp_br ipopt data)))).
      by rewrite solves_deactivations.
  - intros e. unfold mr_tail.
    destruct (mr_ok1 _ _ data); [|intros _; by rewrite app_nil_r].
    destruct (mr_ok2 _ _ data); [intros [=]|intros _].
    unfold printed_values in *. by rewrite !omap_app, Hp1, Hp2.
  - by destruct (co_ok1 _ _ data).
Qed.

Lemma objective_events_deactivations l c ks :
  objective_events (map (EvDeactivateData (Sol := Sol) l c) ks) = [].
Proof. induction ks as [|k ks IH]; [done|]. cbn. exact IH. Qed.

(** X13: [max_recovery_with_infrastructure] deactivates [obj], deactivates
    [br_obj] and activates [treatment_only_obj], in this order, right after
    building the model and before anything else, and does nothing to an
    objective afterwards, whatever the solver reports; [cost_optimal] does
    nothing to any objective. *)
Theorem objectives_are_switched_first data tee w :
  let l := fresh (dom (heap w)) in
  let tr_r := suffix_from (log w) (log (max_recovery' data tee w).2) in
  let tr_c := suffix_from (log w) (log (cost_optimal' data tee w).2) in
  (∃ rest,
     tr_r = [EvBuild l; EvObjDeactivate l obj; EvObjDeactivate l br_obj;
             EvObjActivate l treatment_only_obj] ++ rest
     ∧ objective_events rest = []
     ∧ solves rest ≠ [])
  ∧ objective_events tr_c = [].
Proof.
  cbv zeta. rewrite mr_events, co_events. set (l := fresh (dom (heap w))).
  split.
  - exists ([EvObjFix l ["v_C"] flowlist conclist;
             EvPrint "   ... running linear flow model";
             EvSolve l [] tee (mr_first build_qcp_br data)
               (ipopt [] (mr_first build_qcp_br data)).1]
            ++ (if mr_ok1 build_qcp_br ipopt data
                then mr_stage2 build_qcp_br ipopt l tee data
                     ++ mr_tail build_qcp_br ipopt treat_rev data
                else [])).
    split; [reflexivity|]. split.
    + unfold objective_events. rewrite omap_app.
      destruct (mr_ok1 _ _ data); [|done].
      unfold mr_stage2, mr_tail. rewrite !omap_app.
      fold (objective_events
              (map (EvDeactivateData (Sol := Sol) l Dflow)
                 (K1_keys (mr_reactivated build_qcp_br ipopt data)))).
      rewrite objective_events_deactivations. by destruct (mr_ok2 _ _ data).
    + unfold solves. by rewrite omap_app.
  - by destruct (co_ok1 _ _ data).
Qed.

Lemma mr_models_objs data :
  let built := build_qcp_br data in
  (∀ m, m = mr_first build_qcp_br data
        ∨ m = mr_second build_qcp_br ipopt data
        ∨ m = mr_final build_qcp_br ipopt data →
        objs m obj = false ∧ objs m br_obj = false
        ∧ objs m treatment_only_obj = true).
Proof.
  cbv zeta.
  assert (H1 : objs (mr_first build_qcp_br data)
               = <[treatment_only_obj := true]>
                   (<[br_obj := false]> (<[obj := false]>
                      (objs (build_qcp_br data))))).
  { unfold mr_first. rewrite obj_fix_model_objs, !set_obj_objs. reflexivity. }
  assert (H2 : objs (mr_second build_qcp_br ipopt data)
               = objs (mr_first build_qcp_br data)).
  { unfold mr_second, mr_reactivated.
    rewrite Dflow_K1_off_objs, set_con_objs, obj_fix_model_objs.
    apply load_solution_objs. }
  assert (H3 : objs (mr_final build_qcp_br ipopt data)
               = objs (mr_first build_qcp_br data)).
  { unfold mr_final. rewrite load_solution_objs. exact H2. }
  intros m [-> | [-> | ->]]; rewrite ?H3, ?H2, H1; done.
Qed.

Lemma co_models_objs data :
  ∀ m, m = co_first build_qcp_br data
       ∨ m = co_second build_qcp_br ipopt data
       ∨ m = co_final build_qcp_br ipopt data →
       objs m = objs (build_qcp_br data).
Proof.
  assert (H1 : objs (co_first build_qcp_br data) = objs (build_qcp_br data)).
  { unfold co_first. apply obj_fix_model_objs. }
  assert (H2 : objs (co_second build_qcp_br ipopt data)
               = objs (build_qcp_br data)).
  { unfold co_second. rewrite obj_fix_model_objs, load_solution_objs.
    exact H1. }
  intros m [-> | [-> | ->]]; [exact H1|exact H2|]. unfold co_final.
  rewrite load_solution_objs. exact H2.
Qed.

(** X14: every solve of [max_recovery_with_infrastructure], and the model it
    returns, has [obj] and [br_obj] inactive and [treatment_only_obj] active;
    every solve of [cost_optimal], and the model it returns, has the
    objectives as [build_qcp_br] left them.  ([obj_fix] as modelled touches
    no objective.) *)
Theorem objectives_at_the_solves data tee w :
  let out_r := max_recovery' data tee w in
  let out_c := cost_optimal' data tee w in
  let switched := λ m,
    objs m obj = false ∧ objs m br_obj = false
    ∧ objs m treatment_only_obj = true in
  let as_built := λ m, ∀ o, objs m o = objs (build_qcp_br data) o in
  Forall (λ mr, switched mr.1)
    (solves (suffix_from (log w) (log out_r.2)))
  ∧ (∀ l, out_r.1 = Ok l → ∃ m, heap out_r.2 !! l = Some m ∧ switched m)
  ∧ Forall (λ mr, as_built mr.1)
      (solves (suffix_from (log w) (log out_c.2)))
  ∧ (∀ l, out_c.1 = Ok l → ∃ m, heap out_c.2 !! l = Some m ∧ as_built m).
Proof.
  cbv zeta. rewrite mr_solves, co_solves, mr_result, co_result, mr_heap, co_heap.
  pose proof (mr_models_objs data) as Hr. cbv zeta in Hr.
  pose proof (co_models_objs data) as Hc.
  split; [|split; [|split]].
  - apply List.Forall_cons; [apply Hr; by left|].
    destruct (mr_ok1 _ _ data); [|apply List.Forall_nil].
    apply List.Forall_cons; [|apply List.Forall_nil]. apply Hr. right. by left.
  - intros l. destruct (mr_ok1 _ _ data); [|intros [=]].
    destruct (mr_ok2 _ _ data); intros [= <-].
    eexists. split; [apply lookup_insert_eq|]. apply Hr. right. by right.
  - apply List.Forall_cons; [intros o; rewrite Hc; [done|by left]|].
    destruct (co_ok1 _ _ data); [|apply List.Forall_nil].
    apply List.Forall_cons; [|apply List.Forall_nil].
    intros o. rewrite Hc; [done|]. right. by left.
  - intros l. destruct (co_ok1 _ _ data); [|intros [=]].
    destruct (co_ok2 _ _ data); intros [= <-].
    eexists. split; [apply lookup_insert_eq|].
    intros o. rewrite Hc; [done|]. right. by right.
Qed.

(** X15: in both staged functions the first solve starts from the values of
    the built model, the second solve starts from the values the first solve
    loaded, and the model returned holds the values of the second solve.
    ([obj_fix] as modelled changes no value.) *)
Theorem second_solve_starts_from_the_first_solution data tee w :
  let out_c := cost_optimal' data tee w in
  let out_r := max_recovery' data tee w in
  let tr_c := suffix_from (log w) (log out_c.2) in
  let tr_r := suffix_from (log w) (log out_r.2) in
  let warm := λ (tr : list (@Event Sol)) (options : Options)
                (out : Res loc * @World Sol),
    (∀ m1 r1, solves tr !! 0%nat = Some (m1, r1) →
       values m1 = values (build_qcp_br data) ∧ r1 = (ipopt [] m1).1)
    ∧ (∀ m1 r1 m2 r2,
         solves tr !! 0%nat = Some (m1, r1) →
         solves tr !! 1%nat = Some (m2, r2) →
         values m2 = (ipopt [] m1).2 ∧ r2 = (ipopt options m2).1)
    ∧ (∀ l, out.1 = Ok l →
         ∃ m m2 r2, solves tr !! 1%nat = Some (m2, r2)
                    ∧ heap out.2 !! l = Some m
                    ∧ values m = (ipopt options m2).2) in
  warm tr_c co_options out_c ∧ warm tr_r mr_options out_r.
Proof.
  cbv beta zeta.
  rewrite mr_solves, co_solves, mr_result, co_result, mr_heap, co_heap.
  assert (Hc1 : values (co_first build_qcp_br data)
                = values (build_qcp_br data)).
  { unfold co_first. apply obj_fix_model_values. }
  assert (Hc2 : values (co_second build_qcp_br ipopt data)
                = (ipopt [] (co_first build_qcp_br data)).2).
  { unfold co_second. rewrite obj_fix_model_values.
    apply load_solution_values. }
  assert (Hr1 : values (mr_first build_qcp_br data)
                = values (build_qcp_br data)).
  { unfold mr_first. rewrite obj_fix_model_values. reflexivity. }
  assert (Hr2 : values (mr_second build_qcp_br ipopt data)
                = (ipopt [] (mr_first build_qcp_br data)).2).
  { unfold mr_second, mr_reactivated.
    rewrite Dflow_K1_off_values, set_con_values, obj_fix_model_values.
    apply load_solution_values. }
  split.
  - split; [|split].
    + by intros m1 r1 [= <- <-].
    + intros m1 r1 m2 r2 [= <- <-].
      destruct (co_ok1 _ _ data); [|intros [=]]. by intros [= <- <-].
    + intros l. destruct (co_ok1 _ _ data); [|intros [=]].
      destruct (co_ok2 _ _ data); intros [= <-].
      eexists _, _, _. split; [reflexivity|].
      split; [apply lookup_insert_eq|]. reflexivity.
  - split; [|split].
    + by intros m1 r1 [= <- <-].
    + intros m1 r1 m2 r2 [= <- <-].
      destruct (mr_ok1 _ _ data); [|intros [=]]. by intros [= <- <-].
    + intros l. destruct (mr_ok1 _ _ data); [|intros [=]].
      destruct (mr_ok2 _ _ data); intros [= <-].
      eexists _, _, _. split; [reflexivity|].
      split; [apply lookup_insert_eq|]. reflexivity.
Qed.

End StagedFurther.
